(** * Flashback replay engine: executor, canonicalizer, worker fan-out, reporter

    A shallow embedding of [ops_executor.go], [op.go] and the replay command
    (its worker loop [fetch] and its reporter [printStatus]), with the
    properties of the replay engine stated and proved over it.

    Conventions:
    - a Go [string] is a sequence of bytes: [string] of [ascii];
    - [interface{}] values are the inductive [Value]; a Go map is a [gmap];
    - code with effects runs in the monad [M], whose results are a normal
      return or a panic, each with the state reached;
    - the database driver is an oracle: a stream of replies, one per request. *)

From Stdlib Require Import ZArith String Ascii List Lia DecimalString.
From Stdlib Require Import Floats.SpecFloat.
From stdpp Require Import gmap strings list fin_maps.

Local Open Scope Z_scope.

(** ** Go strings: bytes, runes and UTF-8 *)

Module GoString.

Definition byte_val (a : ascii) : Z := Z.of_N (N_of_ascii a).
Definition byte_of (z : Z) : ascii := ascii_of_N (Z.to_N z).

(** [len(s)] *)
Definition len (s : string) : Z := Z.of_nat (String.length s).

Fixpoint drop (n : nat) (s : string) : string :=
  match n, s with
  | O, _ => s
  | S k, EmptyString => EmptyString
  | S k, String _ s' => drop k s'
  end.

(** [s[i:]]: [None] is the run-time panic (slice bounds out of range). *)
Definition slice_from (s : string) (i : Z) : option string :=
  if (0 <=? i) && (i <=? len s) then Some (drop (Z.to_nat i) s) else None.

(** [strings.Index(s, sub)]: the index of the first occurrence of [sub] in
    [s], or -1. *)
Fixpoint Index_from (i : Z) (s sub : string) : Z :=
  if String.prefix sub s then i
  else match s with
       | EmptyString => -1
       | String _ s' => Index_from (i + 1) s' sub
       end.

Definition Index (s sub : string) : Z := Index_from 0 s sub.

(** [utf8.RuneError], U+FFFD. *)
Definition RuneError : Z := 65533.

(** [utf8.DecodeRuneInString]: the first rune of [s] and its width in bytes.
    The masks and shifts of the Go library are written as [mod] and
    multiplication by the power of two.  An ill-formed sequence decodes to
    [RuneError] with width 1. *)
Definition decode_rune (s : string) : Z * nat :=
  match s with
  | EmptyString => (RuneError, 0%nat)
  | String a0 s1 =>
    let b0 := byte_val a0 in
    if b0 <? 128 then (b0, 1%nat)
    else if (b0 <? 194) || (244 <? b0) then (RuneError, 1%nat)
    else
      match s1 with
      | EmptyString => (RuneError, 1%nat)
      | String a1 s2 =>
        let b1 := byte_val a1 in
        let lo := if b0 =? 224 then 160 else if b0 =? 240 then 144 else 128 in
        let hi := if b0 =? 237 then 159 else if b0 =? 244 then 143 else 191 in
        if (b1 <? lo) || (hi <? b1) then (RuneError, 1%nat)
        else if b0 <? 224 then ((b0 mod 32) * 64 + b1 mod 64, 2%nat)
        else
          match s2 with
          | EmptyString => (RuneError, 1%nat)
          | String a2 s3 =>
            let b2 := byte_val a2 in
            if (b2 <? 128) || (191 <? b2) then (RuneError, 1%nat)
            else if b0 <? 240
            then ((b0 mod 16) * 4096 + (b1 mod 64) * 64 + b2 mod 64, 3%nat)
            else
              match s3 with
              | EmptyString => (RuneError, 1%nat)
              | String a3 _ =>
                let b3 := byte_val a3 in
                if (b3 <? 128) || (191 <? b3) then (RuneError, 1%nat)
                else ((b0 mod 8) * 262144 + (b1 mod 64) * 4096
                      + (b2 mod 64) * 64 + b3 mod 64, 4%nat)
              end
          end
      end
  end.

Definition bytes (l : list Z) : string :=
  fold_right (fun z s => String (byte_of z) s) EmptyString l.

(** A rune that [string(r)] encodes as itself: a Unicode scalar value. *)
Definition valid_rune (r : Z) : bool :=
  (0 <=? r) && (r <=? 1114111) && negb ((55296 <=? r) && (r <=? 57343)).

(** [string(r)] for a rune [r]: its UTF-8 encoding; a rune that is no
    scalar value is encoded as U+FFFD. *)
Definition encode_rune (r : Z) : string :=
  if negb (valid_rune r) then bytes [239; 191; 189]
  else if r <? 128 then bytes [r]
  else if r <? 2048 then bytes [192 + r / 64; 128 + r mod 64]
  else if r <? 65536
  then bytes [224 + r / 4096; 128 + (r / 64) mod 64; 128 + r mod 64]
  else bytes [240 + r / 262144; 128 + (r / 4096) mod 64;
              128 + (r / 64) mod 64; 128 + r mod 64].

(** The runes a [for _, c := range s] loop visits: at each byte either a
    rune starts there, or the byte belongs to the rune decoded before
    ([skip] bytes of it are left). *)
Fixpoint runes_from (skip : nat) (s : string) : list Z :=
  match s with
  | EmptyString => []
  | String _ s' =>
    match skip with
    | S k => runes_from k s'
    | O => let '(r, w) := decode_rune s in r :: runes_from (Nat.pred w) s'
    end
  end.

Definition runes (s : string) : list Z := runes_from 0 s.

Definition encode_runes (rs : list Z) : string :=
  fold_right (fun r s => encode_rune r +:+ s) EmptyString rs.

(** All bytes below 128. *)
Fixpoint is_ascii (s : string) : bool :=
  match s with
  | EmptyString => true
  | String a s' => (byte_val a <? 128) && is_ascii s'
  end.

(** Well-formed UTF-8: decoding and encoding again gives the same bytes. *)
Definition utf8_valid (s : string) : bool :=
  String.eqb (encode_runes (runes s)) s.

(** The rune [c] does not occur in [s]. *)
Definition rune_free (c : Z) (s : string) : bool :=
  forallb (fun r => negb (r =? c)) (runes s).

End GoString.
Import GoString.

(** ** Argument extraction ([getArgs]) *)

(** The four runes the parser tests for: closing brace, double quote, minus
    sign and the digit one. *)
Definition rune_rbrace : Z := 125.
Definition rune_quote : Z := 34.
Definition rune_minus : Z := 45.
Definition rune_one : Z := 49.

(** The one-character string of a double quote. *)
Definition dq : string := String "034"%char EmptyString.

(** The key between double quotes. *)
Definition quoted (key : string) : string := dq +:+ key +:+ dq.

(** The loop of [getArgs] over the runes still to read, with the parser's
    [state], [buffer] and [args].  [None] is the panic of
    [args[len(args)-1]] on an empty [args]. *)
Fixpoint scan (cs : list Z) (state : Z) (buffer : string) (args : list string)
  : option (list string) :=
  match cs with
  | [] => Some args
  | c :: cs' =>
    if (state =? 0) && (c =? rune_rbrace) then Some args
    else if (state =? 0) && (c =? rune_quote) then scan cs' 1 buffer args
    else if state =? 1 then
      if c =? rune_quote then scan cs' 2 EmptyString (args ++ [buffer])
      else scan cs' 1 (buffer +:+ encode_rune c) args
    else if (state =? 2) && (c =? rune_minus) then
      match args !! (length args - 1)%nat with
      | Some last => scan cs' 2 buffer (<[(length args - 1)%nat := "-" +:+ last]> args)
      | None => None
      end
    else if (state =? 2) && (c =? rune_one) then scan cs' 0 buffer args
    else scan cs' state buffer args
  end.

(** [getArgs(textContent, key)]; [None] is a panic. *)
Definition getArgs (textContent key : string) : option (list string) :=
  let start := Index textContent (quoted key) in
  match slice_from textContent (start + len key + 2) with
  | None => None
  | Some rest => scan (runes rest) 0 EmptyString []
  end.

(** The text of the specification's example: the quoted key $orderby, a
    colon, and the mapping of a to 1, b to -1 and c to 1 between braces. *)
Definition orderby_example : string :=
  quoted "$orderby" +:+ ": { " +:+ quoted "a" +:+ ": 1, " +:+ quoted "b"
  +:+ ": -1, " +:+ quoted "c" +:+ ": 1 }".

(** ** The parser on the text of a mapping *)

(** One entry of a mapping as the text has it: the text before the key
    ([e_gap]: blanks, a comma, the rest of the number before), the key name
    between double quotes, the text up to the direction ([e_mid]: a colon,
    blanks), and the direction, written 1 or -1. *)
Record entry := { e_gap : string; e_name : string; e_mid : string; e_neg : bool }.

Definition entry_text (e : entry) : string :=
  e_gap e +:+ quoted (e_name e) +:+ e_mid e +:+ (if e_neg e then "-1" else "1").

(** Text the parser skips while it looks for a key: no double quote and no
    closing brace. *)
Definition gap_ok (g : string) : bool :=
  utf8_valid g && rune_free rune_quote g && rune_free rune_rbrace g.

(** A key name the parser reads whole: no double quote in it (a JSON escape
    of one included). *)
Definition name_ok (n : string) : bool :=
  utf8_valid n && rune_free rune_quote n.

(** Text the parser skips while it looks for the direction: no minus sign
    and no digit one. *)
Definition mid_ok (m : string) : bool :=
  utf8_valid m && rune_free rune_minus m && rune_free rune_one m.

Definition entry_ok (e : entry) : bool :=
  gap_ok (e_gap e) && name_ok (e_name e) && mid_ok (e_mid e).

Definition entries_text (es : list entry) : string :=
  fold_right (fun e s => entry_text e +:+ s) EmptyString es.

(** A mapping between braces; [g] is the text between the last direction and
    the closing brace. *)
Definition mapping_text (es : list entry) (g : string) : string :=
  "{" +:+ entries_text es +:+ g +:+ "}".

(** What the caller expects for an entry: the key, with a minus sign in
    front when the direction is negative. *)
Definition entry_arg (e : entry) : string :=
  if e_neg e then "-" +:+ e_name e else e_name e.


(** ** Values, documents and operations ([op.go]) *)

Set Warnings "-register-all".

(** A value of type [interface{}] in a decoded document, by dynamic type.
    [VNil] is the nil interface; [VInt] is Go's native [int]. *)
Inductive Value : Type :=
| VNil
| VBool (b : bool)
| VInt (n : Z)
| VInt32 (n : Z)
| VInt64 (n : Z)
| VFloat32 (f : spec_float)
| VFloat64 (f : spec_float)
| VString (s : string)
| VArray (l : list Value)
| VMap (m : gmap string Value).

(** [type Document map[string]interface{}] *)
Abbreviation Document := (gmap string Value).

(** [m[k]] on a Go map: the zero value, the nil interface, for a missing
    key. *)
Definition index (m : Document) (k : string) : Value := default VNil (m !! k).

Definition is_nil (v : Value) : bool :=
  match v with VNil => true | _ => false end.

(** [type OpType string] *)
Abbreviation OpType := string (only parsing).

Definition Insert : OpType := "insert".
Definition Update : OpType := "update".
Definition Remove : OpType := "remove".
Definition Query : OpType := "query".
Definition Command : OpType := "command".
Definition Count : OpType := "command.count".
Definition FindAndModify : OpType := "command.findandmodify".

Definition AllOpTypes : list OpType :=
  [Insert; Update; Remove; Query; Count; FindAndModify].

Record Op := {
  Database : string;
  Collection : string;
  Type_ : OpType;
  Timestamp : Z;
  Content : Document;
  TextContent : string;
}.

Definition set_Type (t : OpType) (op : Op) : Op :=
  {| Database := Database op; Collection := Collection op; Type_ := t;
     Timestamp := Timestamp op; Content := Content op;
     TextContent := TextContent op |}.

Definition set_Collection (c : string) (op : Op) : Op :=
  {| Database := Database op; Collection := c; Type_ := Type_ op;
     Timestamp := Timestamp op; Content := Content op;
     TextContent := TextContent op |}.

Definition set_Content (d : Document) (op : Op) : Op :=
  {| Database := Database op; Collection := Collection op; Type_ := Type_ op;
     Timestamp := Timestamp op; Content := d;
     TextContent := TextContent op |}.

(** ** Errors *)

(** The values of type [error] the executor tells apart: the two driver error
    types of the first type switch of [retryOnSocketFailure], the two
    sentinel values of its second switch, an error made by [fmt.Errorf], and
    any other error (a socket error, a timeout). *)
Inductive error : Type :=
| QueryError (code : Z) (msg : string)
| LastError (code : Z) (msg : string)
| ErrNotFound
| NotSupported
| Errorf (format : string) (arg : Value)
| OtherError (msg : string).

(** ** Computations that may panic *)

(** The result of running Go code from a state: it returns a value, or it
    panics; either way with the state reached. *)
Inductive Res (S A : Type) : Type :=
| Ret (a : A) (s : S)
| Panic (s : S).
Arguments Ret {S A} a s.
Arguments Panic {S A} s.

Definition M (S A : Type) : Type := S -> Res S A.

#[global] Instance M_ret {S} : MRet (M S) := fun A a s => Ret a s.
#[global] Instance M_bind {S} : MBind (M S) := fun A B f m s =>
  match m s with
  | Ret a s' => f a s'
  | Panic s' => Panic s'
  end.

Definition panic {S A} : M S A := fun s => Panic s.
Definition gets {S A} (f : S -> A) : M S A := fun s => Ret (f s) s.
Definition modify {S} (f : S -> S) : M S unit := fun s => Ret tt (f s).

(** The state a run ends in. *)
Definition final {S A} (r : Res S A) : S :=
  match r with Ret _ s => s | Panic s => s end.

Definition returns {S A} (r : Res S A) : bool :=
  match r with Ret _ _ => true | Panic _ => false end.

(** A pure computation that may panic ([None]). *)
Definition lift {S A} (o : option A) : M S A :=
  match o with Some a => mret a | None => panic end.

(** ** The canonicalizer ([CanonicalizeOp]) *)

(** [*Op]: an address in the store of [Op] records. *)
Abbreviation ptr := nat (only parsing).
Abbreviation Heap := (gmap nat Op).

(** [*op]; a nil or dangling pointer panics. *)
Definition deref (op : ptr) : M Heap Op := fun h =>
  match h !! op with
  | Some o => Ret o h
  | None => Panic h
  end.

(** An assignment to a field of [*op]. *)
Definition assign (op : ptr) (f : Op -> Op) : M Heap unit :=
  o ← deref op; modify (fun h : Heap => <[op := f o]> h).

(** The [for _, name := range ...] loop of [CanonicalizeOp], on the names
    still to try. *)
Fixpoint canonicalize_loop (op : ptr) (cmd : Document) (names : list string)
  : M Heap (option ptr) :=
  match names with
  | [] => mret None
  | name :: names' =>
    match cmd !! name with
    | None => canonicalize_loop op cmd names'
    | Some collName =>
      assign op (set_Type ("command." +:+ name));;
      match collName with
      | VString c =>
        assign op (set_Collection c);;
        assign op (set_Content cmd);;
        mret (Some op)
      | _ => panic
      end
    end
  end.

(** [CanonicalizeOp(op)]: the pointer returned, [None] for nil. *)
Definition CanonicalizeOp (op : ptr) : M Heap (option ptr) :=
  o ← deref op;
  if negb (String.eqb (Type_ o) Command) then mret (Some op)
  else
    match index (Content o) "command" with
    | VMap cmd => canonicalize_loop op cmd ["findandmodify"; "count"]
    | _ => panic
    end.

(** ** The executor ([ops_executor.go]) *)

(** Modelled from the spec: the record [OpStat] (declared with the statistics
    analyzer, which is not among the sources): a latency sample of an
    operation type, a latency and an error flag, in the order of the
    positional literals of [Execute]. *)
Record OpStat := { OpType_ : OpType; Latency : Z; OpError : bool }.

(** A [*mgo.Collection]: the database and collection names. *)
Record Coll := { coll_db : string; coll_name : string }.

(** A [*mgo.Query] as built by [Find] and changed by [Hint], [Sort], [Limit]
    and [Skip]: the selector, and the arguments of each call made. *)
Record MgoQuery := {
  q_selector : Value;
  q_hint : option (list string);
  q_sort : option (list string);
  q_limit : option Z;
  q_skip : option Z;
}.

Definition Find (selector : Value) : MgoQuery :=
  {| q_selector := selector; q_hint := None; q_sort := None;
     q_limit := None; q_skip := None |}.

Definition Hint (args : list string) (q : MgoQuery) : MgoQuery :=
  {| q_selector := q_selector q; q_hint := Some args; q_sort := q_sort q;
     q_limit := q_limit q; q_skip := q_skip q |}.

Definition Sort (args : list string) (q : MgoQuery) : MgoQuery :=
  {| q_selector := q_selector q; q_hint := q_hint q; q_sort := Some args;
     q_limit := q_limit q; q_skip := q_skip q |}.

Definition Limit (n : Z) (q : MgoQuery) : MgoQuery :=
  {| q_selector := q_selector q; q_hint := q_hint q; q_sort := q_sort q;
     q_limit := Some n; q_skip := q_skip q |}.

Definition Skip (n : Z) (q : MgoQuery) : MgoQuery :=
  {| q_selector := q_selector q; q_hint := q_hint q; q_sort := q_sort q;
     q_limit := q_limit q; q_skip := Some n |}.

(** A call that goes to the database. *)
Inductive Request : Type :=
| ReqAll (c : Coll) (q : MgoQuery)
| ReqInsert (c : Coll) (doc : Value)
| ReqUpdate (c : Coll) (selector update : Value)
| ReqRemove (c : Coll) (selector : Value)
| ReqCount (c : Coll)
| ReqApply (c : Coll) (selector : Value) (update : Document).

(** What the database answers: an error or none, the documents found, and
    the time the call took. *)
Record Reply := { r_err : option error; r_docs : list Document; r_elapsed : Z }.

(** What an executor does that others can see, in order. *)
Inductive Event : Type :=
| EvRequest (r : Request)
| EvRefresh
| EvLogError (msg : string) (err : error).

(** The fields of an [OpsExecutor] and what it acts on: the wall clock, the
    session (the replies it will give, the number of requests served), the
    trace of requests, refreshes and log lines, and the statistics channel
    ([None] for a nil channel, else the samples sent and not yet received). *)
Record World := {
  clock : Z;
  driver : nat -> Reply;
  served : nat;
  trace : list Event;
  statsChan : option (list OpStat);
  lastResult : option (list Document);
  lastLatency : Z;
}.

Definition emit (ev : Event) (w : World) : World :=
  {| clock := clock w; driver := driver w; served := served w;
     trace := trace w ++ [ev]; statsChan := statsChan w;
     lastResult := lastResult w; lastLatency := lastLatency w |}.

Definition set_lastResult (r : option (list Document)) (w : World) : World :=
  {| clock := clock w; driver := driver w; served := served w;
     trace := trace w; statsChan := statsChan w;
     lastResult := r; lastLatency := lastLatency w |}.

Definition set_lastLatency (l : Z) (w : World) : World :=
  {| clock := clock w; driver := driver w; served := served w;
     trace := trace w; statsChan := statsChan w;
     lastResult := lastResult w; lastLatency := l |}.

Definition set_statsChan (c : option (list OpStat)) (w : World) : World :=
  {| clock := clock w; driver := driver w; served := served w;
     trace := trace w; statsChan := c;
     lastResult := lastResult w; lastLatency := lastLatency w |}.

(** The session serves a request: the request is recorded, the next reply is
    taken and the clock moves by the time the call took. *)
Definition serve (w : World) : World :=
  {| clock := clock w + r_elapsed (driver w (served w)); driver := driver w;
     served := S (served w); trace := trace w; statsChan := statsChan w;
     lastResult := lastResult w; lastLatency := lastLatency w |}.

Definition request (r : Request) : M World Reply := fun w =>
  Ret (driver w (served w)) (serve (emit (EvRequest r) w)).

(** [session.Refresh()] *)
Definition Refresh (w : World) : World := emit EvRefresh w.

(** [logger.Error(msg, err)] *)
Definition logError (msg : string) (err : error) (w : World) : World :=
  emit (EvLogError msg err) w.

(** [time.Now()] *)
Definition Now : M World Z := gets clock.

(** [e.statsChan <- stat] on a channel that is not nil. *)
Definition send (stat : OpStat) : M World unit :=
  modify (fun w => set_statsChan (option_map (fun q => q ++ [stat]) (statsChan w)) w).

(** The least [int] (64 bits). *)
Definition min_int : Z := - 2 ^ 63.
Definition max_int : Z := 2 ^ 63 - 1.

(** [int(f)] for a float: the fraction is dropped.  Go leaves the result open
    when the value does not fit (or is not a number); the value taken here is
    the one of the amd64 conversion instruction. *)
Definition float_to_int (f : spec_float) : Z :=
  match f with
  | S754_zero _ => 0
  | S754_finite s m e =>
    let mag := if 0 <=? e then Z.pos m * 2 ^ e else Z.pos m / 2 ^ (- e) in
    let v := if s then - mag else mag in
    if (min_int <=? v) && (v <=? max_int) then v else min_int
  | S754_infinity _ | S754_nan => min_int
  end.

(** [safeGetInt(i)]: the pair of the [int] and the error. *)
Definition safeGetInt (i : Value) : Z * option error :=
  match i with
  | VInt32 n => (n, None)
  | VInt64 n => (n, None)
  | VFloat32 f => (float_to_int f, None)
  | VFloat64 f => (float_to_int f, None)
  | _ => (0, Some (Errorf "unsupported type for %i" i))
  end.

(** [type execute func(content, textContent, collection) error] *)
Abbreviation execute := (Document -> string -> Coll -> M World (option error)).

(** The first block of [execQuery]: the query of [coll.Find], with the hint
    and the sort of a query that has them. *)
Definition findQuery (content : Document) (textContent : string)
  : M World MgoQuery :=
  match index content "query" with
  | VMap q =>
    if negb (is_nil (index q "$query")) then
      let query := Find (index q "$query") in
      query ←
        (if negb (is_nil (index q "$hint")) then
           args ← lift (getArgs textContent "$hint"); mret (Hint args query)
         else mret query);
      (if negb (is_nil (index q "$orderby")) then
         args ← lift (getArgs textContent "$orderby"); mret (Sort args query)
       else mret query)
    else mret (Find (index content "query"))
  | _ => mret (Find (index content "query"))
  end.

(** The second block: [ntoreturn]. *)
Definition setLimit (content : Document) (query : MgoQuery) : M World MgoQuery :=
  if negb (is_nil (index content "ntoreturn")) then
    match safeGetInt (index content "ntoreturn") with
    | (_, Some err) =>
      modify (logError "could not set ntoreturn: " err);; mret query
    | (ntoreturn, None) => mret (Limit ntoreturn query)
    end
  else mret query.

(** The third block: [ntoskip]. *)
Definition setSkip (content : Document) (query : MgoQuery) : M World MgoQuery :=
  if negb (is_nil (index content "ntoskip")) then
    match safeGetInt (index content "ntoskip") with
    | (_, Some err) =>
      modify (logError "could not set ntoskip: " err);; mret query
    | (ntoskip, None) => mret (Skip ntoskip query)
    end
  else mret query.

Definition execQuery : execute := fun content textContent coll =>
  query ← findQuery content textContent;
  query ← setLimit content query;
  query ← setSkip content query;
  reply ← request (ReqAll coll query);
  modify (set_lastResult (Some (r_docs reply)));;
  mret (r_err reply).

Definition execInsert : execute := fun content textContent coll =>
  reply ← request (ReqInsert coll (index content "o")); mret (r_err reply).

Definition execUpdate : execute := fun content textContent coll =>
  reply ← request (ReqUpdate coll (index content "query") (index content "updateobj"));
  mret (r_err reply).

Definition execRemove : execute := fun content textContent coll =>
  reply ← request (ReqRemove coll (index content "query")); mret (r_err reply).

Definition execCount : execute := fun content textContent coll =>
  reply ← request (ReqCount coll); mret (r_err reply).

Definition execFindAndModify : execute := fun content textContent coll =>
  match index content "update" with
  | VMap update =>
    reply ← request (ReqApply coll (index content "query") update);
    mret (r_err reply)
  | _ => panic
  end.

(** The map [e.subExecutes] that [NewOpsExecutor] builds. *)
Definition subExecutes : gmap string execute :=
  <[Query := execQuery]> (<[Insert := execInsert]> (<[Update := execUpdate]>
  (<[Remove := execRemove]> (<[Count := execCount]>
  (<[FindAndModify := execFindAndModify]> ∅))))).

(** The errors [retryOnSocketFailure] returns at once: the cases of its two
    switches. *)
Definition no_retry (err : error) : bool :=
  match err with
  | QueryError _ _ | LastError _ _ => true
  | ErrNotFound | NotSupported => true
  | _ => false
  end.

Section Retry.

(** The state [block] runs on, with the two things [retryOnSocketFailure]
    does to it itself. *)
Context {S : Type} (Refresh_ : S -> S) (Error_ : string -> error -> S -> S).

Definition retryOnSocketFailure (block : M S (option error))
  : M S (option error) :=
  err ← block;
  match err with
  | None => mret None
  | Some e =>
    if no_retry e then mret (Some e)
    else
      modify Refresh_;;
      modify (Error_ "retrying mongo query after error: " e);;
      block
  end.

End Retry.

(** The closure [block] of [Execute]; calling the nil function that the map
    gives for a missing key panics. *)
Definition block (op : Op) : M World (option error) :=
  let content := Content op in
  let textContent := TextContent op in
  let coll := {| coll_db := Database op; coll_name := Collection op |} in
  match subExecutes !! Type_ op with
  | Some exec => exec content textContent coll
  | None => panic
  end.

Definition Execute (op : Op) : M World (option error) :=
  startOp ← Now;
  err ← retryOnSocketFailure Refresh logError (block op);
  now ← Now;
  let latencyOp := now - startOp in
  modify (set_lastLatency latencyOp);;
  chan ← gets statsChan;
  (if chan is Some _ then
     match err with
     | None => send {| OpType_ := Type_ op; Latency := latencyOp; OpError := false |}
     | Some _ => send {| OpType_ := Type_ op; Latency := latencyOp; OpError := true |}
     end
   else mret tt);;
  mret err.

Definition LastLatency : M World Z := gets lastLatency.

(** The record a canonicalized command is rewritten to. *)
Definition canonical (t : OpType) (coll : string) (cmd : Document) (o : Op) : Op :=
  {| Database := Database o; Collection := coll; Type_ := t;
     Timestamp := Timestamp o; Content := cmd; TextContent := TextContent o |}.

(** The time the session takes for [n] requests from request number [from]
    on. *)
Fixpoint elapsed (d : nat -> Reply) (from n : nat) : Z :=
  match n with
  | O => 0
  | S k => r_elapsed (d from) + elapsed d (S from) k
  end.

(** ** Notions used to state what the executor does *)

(** The inner mapping of a query sent in an envelope: [content.query] is a
    mapping whose [$query] is not nil. *)
Definition envelope (content : Document) : option Document :=
  match index content "query" with
  | VMap q => if is_nil (index q "$query") then None else Some q
  | _ => None
  end.

(** The four dynamic types [safeGetInt] has a case for. *)
Definition numeric (v : Value) : bool :=
  match v with
  | VInt32 _ | VInt64 _ | VFloat32 _ | VFloat64 _ => true
  | _ => false
  end.

(** The requests among some events, in order. *)
Definition requests (evs : list Event) : list Request :=
  omap (fun ev => match ev with EvRequest r => Some r | _ => None end) evs.

(** The number of session refreshes among some events. *)
Definition refresh_count (evs : list Event) : nat :=
  length (List.filter (fun ev => match ev with EvRefresh => true | _ => false end) evs).

(** The log line of a value that [safeGetInt] rejects. *)
Definition rejected (msg : string) (v : Value) : list Event :=
  if is_nil v || numeric v then []
  else [EvLogError msg (Errorf "unsupported type for %i" v)].

(** The limit or skip a value sets. *)
Definition accepted (v : Value) : option Z :=
  if numeric v then Some (fst (safeGetInt v)) else None.

(** Several events recorded one after the other. *)
Definition emits (evs : list Event) (w : World) : World :=
  fold_left (fun w ev => emit ev w) evs w.

(** ** The reporter ([printStatus], [report]) *)

(** The one-character string of a line feed. *)
Definition nl : string := String "010"%char EmptyString.

(** The verb [%d] of [fmt] on an integer. *)
Definition fmt_d (n : Z) : string := NilZero.string_of_int (Z.to_int n).

Fixpoint zeros (n : nat) : string :=
  match n with
  | O => EmptyString
  | S k => String "0"%char (zeros k)
  end.

(** [appendInt(b, x, width)] of package [time]: a minus sign for a negative
    number, then its digits with zeros in front up to [width]. *)
Definition appendInt (x : Z) (width : nat) : string :=
  let ds := NilZero.string_of_uint (N.to_uint (Z.abs_N x)) in
  (if x <? 0 then "-" else "") +:+ zeros (width - String.length ds) +:+ ds.

(** The verb [%.2f] of [fmt] on a float64: the exact value rounded to two
    decimals, to nearest and to even on a tie; the sign is the sign of the
    float. *)
Definition fmt_f2 (f : spec_float) : string :=
  match f with
  | S754_nan => "NaN"
  | S754_infinity s => if s then "-Inf" else "+Inf"
  | S754_zero s => (if s then "-" else "") +:+ "0.00"
  | S754_finite s m e =>
    let hundredths :=
      if 0 <=? e then Z.pos m * 2 ^ e * 100
      else
        let d := 2 ^ (- e) in
        let q := (Z.pos m * 100) / d in
        let r := (Z.pos m * 100) mod d in
        if (d <? 2 * r) || ((d =? 2 * r) && Z.odd q) then q + 1 else q in
    (if s then "-" else "")
    +:+ NilZero.string_of_uint (N.to_uint (Z.to_N (hundredths / 100)))
    +:+ "." +:+ appendInt (hundredths mod 100) 2
  end.

(** [fmt.Sprintf] with the format of the statistics line: a string, a comma,
    an integer, a comma and a float with two decimals. *)
Definition Sprintf_s_d_f2 (s : string) (n : Z) (f : spec_float) : string :=
  s +:+ "," +:+ fmt_d n +:+ "," +:+ fmt_f2 f.

(** A [time.Time] by its fields in its location; [zone] is the offset of
    the location in seconds east of UTC. *)
Record Time := {
  year : Z; month : Z; day : Z; hour : Z; minute : Z; second : Z; zone : Z;
}.

(** [t.Format] with the layout of the statistics line: year, month and day
    with dashes, a blank, hour, minute and second with colons, a blank and
    the zone as sign, hours and minutes. *)
Definition Format (t : Time) : string :=
  let z := Z.quot (zone t) 60 in
  appendInt (year t) 4 +:+ "-" +:+ appendInt (month t) 2 +:+ "-"
  +:+ appendInt (day t) 2 +:+ " " +:+ appendInt (hour t) 2 +:+ ":"
  +:+ appendInt (minute t) 2 +:+ ":" +:+ appendInt (second t) 2 +:+ " "
  +:+ (if z <? 0 then "-" else "+")
  +:+ appendInt (Z.quot (Z.abs z) 60) 2 +:+ appendInt (Z.rem (Z.abs z) 60) 2.

Inductive Percentile : Type := P50 | P70 | P90 | P95 | P99.

(** Modelled from the spec: the snapshot [ExecutionStatus] of the statistics
    analyzer, which is not among the sources.  The fields are the ones
    [printStatus] reads, with the types its format verbs ask for; the
    percentile summaries are there for every op type, as the snapshot has
    them per op type. *)
Record ExecutionStatus := {
  OpsExecuted : Z;
  IntervalOpsExecuted : Z;
  OpsErrors : Z;
  IntervalOpsErrors : Z;
  OpsPerSec : spec_float;
  IntervalOpsPerSec : spec_float;
  Latencies : OpType -> Percentile -> spec_float;
  IntervalLatencies : OpType -> Percentile -> spec_float;
  MaxLatency : gmap string spec_float;
  IntervalMaxLatency : gmap string spec_float;
  Counts : gmap string Z;
  IntervalCounts : gmap string Z;
  TypeOpsSec : gmap string spec_float;
  IntervalTypeOpsSec : gmap string spec_float;
}.

(** [m[k]] on maps to integers and to floats: zero for a missing key. *)
Definition index_int (m : gmap string Z) (k : string) : Z := default 0 (m !! k).
Definition index_float (m : gmap string spec_float) (k : string) : spec_float :=
  default (S754_zero false) (m !! k).

(** An argument of a log call, and a call of [logger.Infof]. *)
Inductive Arg : Type := ArgS (s : string) | ArgD (n : Z) | ArgF (f : spec_float).
Record LogLine := { format : string; args : list Arg }.

(** What the reporter acts on: the time [time.Now] reads, the lines logged,
    and the content of the open files, by file. *)
Record Output := {
  wall : Time;
  infos : list LogLine;
  files : gmap nat string;
}.

Definition Infof (fmt : string) (a : list Arg) (o : Output) : Output :=
  {| wall := wall o; infos := infos o ++ [{| format := fmt; args := a |}];
     files := files o |}.

(** [f.WriteString(s)] on an open file, at its end; the error of a write on
    a file that is not open is dropped, as the caller drops it. *)
Definition WriteString (f : nat) (s : string) (o : Output) : Output :=
  {| wall := wall o; infos := infos o;
     files := alter (fun c => c +:+ s) f (files o) |}.

Definition template : string :=
  "   %s: P50: %.2fms, P70: %.2fms, P90: %.2fms, P95 %.2fms, P99 %.2fms, Max %.2fms" +:+ nl.

(** One turn of the loop of [printStatus] over [AllOpTypes]. *)
Definition printStatus_turn (status : ExecutionStatus) (statsOut : option nat)
  (acc : Output * string) (opType : OpType) : Output * string :=
  let '(o, statsLineOutput) := acc in
  let latencies := Latencies status opType in
  let intervalLatencies := IntervalLatencies status opType in
  let o := Infof "  Op type: %s, count: %d, interval count %d, avg ops/sec: %.2f, interval ops/sec: %.2f"
             [ArgS opType; ArgD (index_int (Counts status) opType);
              ArgD (index_int (IntervalCounts status) opType);
              ArgF (index_float (TypeOpsSec status) opType);
              ArgF (index_float (IntervalTypeOpsSec status) opType)] o in
  let o := Infof template
             [ArgS "Total"; ArgF (latencies P50); ArgF (latencies P70);
              ArgF (latencies P90); ArgF (latencies P95); ArgF (latencies P99);
              ArgF (index_float (MaxLatency status) opType)] o in
  let o := Infof template
             [ArgS "Interval"; ArgF (intervalLatencies P50);
              ArgF (intervalLatencies P70); ArgF (intervalLatencies P90);
              ArgF (intervalLatencies P95); ArgF (intervalLatencies P99);
              ArgF (index_float (IntervalMaxLatency status) opType)] o in
  let statsLineOutput :=
    if statsOut is Some _ then
      Sprintf_s_d_f2 statsLineOutput (index_int (IntervalCounts status) opType)
        (index_float (IntervalTypeOpsSec status) opType)
    else statsLineOutput in
  (o, statsLineOutput).

(** [printStatus(status, statsOut, name)]; [statsOut] is [None] for a nil
    file. *)
Definition printStatus (status : ExecutionStatus) (statsOut : option nat)
  (name : string) (o : Output) : Output :=
  let o := Infof "[%s] Executed %d ops (%d in interval), got %d errors (%d in interval), %.2f ops/sec (total), %.2f ops/sec (interval)"
             [ArgS name; ArgD (OpsExecuted status); ArgD (IntervalOpsExecuted status);
              ArgD (OpsErrors status); ArgD (IntervalOpsErrors status);
              ArgF (OpsPerSec status); ArgF (IntervalOpsPerSec status)] o in
  let statsLineOutput :=
    if statsOut is Some _ then
      let timestamp := Format (wall o) in
      Sprintf_s_d_f2 timestamp (IntervalOpsExecuted status) (IntervalOpsPerSec status)
    else EmptyString in
  let '(o, statsLineOutput) :=
    fold_left (printStatus_turn status statsOut) AllOpTypes (o, statsLineOutput) in
  match statsOut with
  | Some f => WriteString f (statsLineOutput +:+ nl) o
  | None => o
  end.

(** A node as [report] sees it: the snapshot its analyzer gives at this
    tick, its statistics file and its name. *)
Record NodeView := {
  view_status : ExecutionStatus;
  view_file : option nat;
  view_name : string;
}.

(** [report()]: [printStatus] for each node in turn. *)
Definition report (nodes : list NodeView) (o : Output) : Output :=
  fold_left (fun o n => printStatus (view_status n) (view_file n) (view_name n) o)
    nodes o.

(** The number of occurrences of a byte in a string. *)
Fixpoint count_byte (c : ascii) (s : string) : nat :=
  match s with
  | EmptyString => O
  | String a s' => ((if Ascii.eqb a c then 1 else 0) + count_byte c s')%nat
  end.

(** The statistics line of a snapshot without its line feed: the time, the
    interval count and rate, and the interval count and rate of each op
    type of a list. *)
Definition stats_line (t : Time) (status : ExecutionStatus) (types : list OpType)
  : string :=
  fold_left
    (fun line opType =>
       line +:+ "," +:+ fmt_d (index_int (IntervalCounts status) opType)
       +:+ "," +:+ fmt_f2 (index_float (IntervalTypeOpsSec status) opType))
    types
    (Format t +:+ "," +:+ fmt_d (IntervalOpsExecuted status)
     +:+ "," +:+ fmt_f2 (IntervalOpsPerSec status)).

(** ** The fan-out of one operation by a worker ([fetch]) *)

(** Where one goroutine [execute(ws.exec, ws.name)] is: not spawned yet,
    spawned and not yet running, inside [executor.Execute(op)], back from it
    with its result, or finished (its deferred [wg.Done()] has run). *)
Inductive Goroutine : Type :=
| NotSpawned
| Spawned
| InExecute
| Returned (err : option error)
| Finished.

(** Where the worker is in the fan-out: before [wg.Add], at the [go]
    statement for the worker state of index [k], blocked in [wg.Wait()], or
    past it. *)
Inductive WorkerAt : Type :=
| AtAdd
| AtGo (k : nat)
| AtWait
| AfterWait.

(** The state of the fan-out of one op: the worker, the counter of the wait
    group, the goroutines and the executor of each worker state, the error
    lines logged (the node name and the error of each), and whether a panic
    has ended the program. *)
Record FanOut := {
  worker : WorkerAt;
  wg : Z;
  goroutines : list Goroutine;
  executors : list World;
  errors_logged : list (string * error);
  crashed : bool;
}.

Definition set_worker (a : WorkerAt) (s : FanOut) : FanOut :=
  {| worker := a; wg := wg s; goroutines := goroutines s;
     executors := executors s; errors_logged := errors_logged s;
     crashed := crashed s |}.

Definition set_wg (n : Z) (s : FanOut) : FanOut :=
  {| worker := worker s; wg := n; goroutines := goroutines s;
     executors := executors s; errors_logged := errors_logged s;
     crashed := crashed s |}.

Definition set_goroutine (k : nat) (g : Goroutine) (s : FanOut) : FanOut :=
  {| worker := worker s; wg := wg s; goroutines := <[k := g]> (goroutines s);
     executors := executors s; errors_logged := errors_logged s;
     crashed := crashed s |}.

Definition set_executor (k : nat) (w : World) (s : FanOut) : FanOut :=
  {| worker := worker s; wg := wg s; goroutines := goroutines s;
     executors := <[k := w]> (executors s); errors_logged := errors_logged s;
     crashed := crashed s |}.

Definition log_errors (l : list (string * error)) (s : FanOut) : FanOut :=
  {| worker := worker s; wg := wg s; goroutines := goroutines s;
     executors := executors s; errors_logged := errors_logged s ++ l;
     crashed := crashed s |}.

Definition crash (s : FanOut) : FanOut :=
  {| worker := worker s; wg := wg s; goroutines := goroutines s;
     executors := executors s; errors_logged := errors_logged s;
     crashed := true |}.

(** The line [execute] logs for the result of [Execute]: one for an error,
    when [verbose] is set. *)
Definition error_line (verbose : bool) (name : string) (err : option error)
  : list (string * error) :=
  match err with
  | Some e => if verbose then [(name, e)] else []
  | None => []
  end.

(** One step of the worker or of one of its goroutines, for the op [op], the
    node names [names] of the worker states and the flag [verbose]; any
    step that is enabled may be the next one. *)
Inductive fanout_step (op : Op) (names : list string) (verbose : bool)
  : FanOut -> FanOut -> Prop :=
| step_Add s :
    crashed s = false -> worker s = AtAdd ->
    fanout_step op names verbose s
      (set_worker (AtGo 0) (set_wg (wg s + Z.of_nat (length names)) s))
| step_go s k name :
    crashed s = false -> worker s = AtGo k -> names !! k = Some name ->
    fanout_step op names verbose s
      (set_worker (AtGo (S k)) (set_goroutine k Spawned s))
| step_range_end s k :
    crashed s = false -> worker s = AtGo k -> names !! k = None ->
    fanout_step op names verbose s (set_worker AtWait s)
| step_start s k :
    crashed s = false -> goroutines s !! k = Some Spawned ->
    fanout_step op names verbose s (set_goroutine k InExecute s)
| step_return s k w err w' :
    crashed s = false -> goroutines s !! k = Some InExecute ->
    executors s !! k = Some w -> Execute op w = Ret err w' ->
    fanout_step op names verbose s
      (set_goroutine k (Returned err) (set_executor k w' s))
| step_panic s k w w' :
    crashed s = false -> goroutines s !! k = Some InExecute ->
    executors s !! k = Some w -> Execute op w = Panic w' ->
    fanout_step op names verbose s (crash s)
| step_Done s k err name :
    crashed s = false -> goroutines s !! k = Some (Returned err) ->
    names !! k = Some name ->
    fanout_step op names verbose s
      (set_goroutine k Finished
         (set_wg (wg s - 1) (log_errors (error_line verbose name err) s)))
| step_Wait s :
    crashed s = false -> worker s = AtWait -> wg s = 0 ->
    fanout_step op names verbose s (set_worker AfterWait s).

(** The fan-out as the worker enters it, with the executors of its worker
    states. *)
Definition fanout_init (execs : list World) : FanOut :=
  {| worker := AtAdd; wg := 0;
     goroutines := replicate (length execs) NotSpawned;
     executors := execs; errors_logged := []; crashed := false |}.

Definition is_finished (g : Goroutine) : bool :=
  match g with Finished => true | _ => false end.

Definition is_spawned (g : Goroutine) : bool :=
  match g with NotSpawned => false | _ => true end.

(** The number of goroutines that have finished. *)
Fixpoint count_finished (gs : list Goroutine) : nat :=
  match gs with
  | [] => O
  | g :: gs' => ((if is_finished g then 1 else 0) + count_finished gs')%nat
  end.

(** ** The loop of a worker ([fetch]) *)

(** The fan-out of one op from its start to the end of [wg.Wait()], with
    the goroutines run one after the other in the order of the worker
    states (one of the schedules of [fanout_step]; the executors end in the
    same states under every schedule).  [None] when an [Execute] panics. *)
Fixpoint fanout_run (op : Op) (verbose : bool) (names : list string)
  (execs : list World) : option (list World * list (string * error)) :=
  match execs, names with
  | w :: execs', name :: names' =>
    match Execute op w with
    | Ret err w' =>
      match fanout_run op verbose names' execs' with
      | Some (ws, lines) => Some (w' :: ws, error_line verbose name err ++ lines)
      | None => None
      end
    | Panic _ => None
    end
  | _, _ => Some ([], [])
  end.

(** A signed integer of 64 bits after an overflow. *)
Definition wrap64 (z : Z) : Z := (z + 2 ^ 63) mod 2 ^ 64 - 2 ^ 63.

(** [isSlow(latency)]: above the threshold in milliseconds, as a
    [time.Duration] in nanoseconds. *)
Definition isSlow (slowOpThresholdMs : Z) (latency : Z) : bool :=
  wrap64 (slowOpThresholdMs * 1000000) <? latency.

(** What a worker acts on: the store of the ops, the executors of its worker
    states, the counter of ops executed, the error lines and the slow-op
    lines logged (for each, the type of the op and the last latency of every
    node). *)
Record WorkerState := {
  ops : Heap;
  node_execs : list World;
  opsExecuted_ : Z;
  error_lines : list (string * error);
  slow_lines : list (OpType * list Z);
}.

(** One turn of the loop of [fetch] on an op that the canonicalizer has
    returned: the fan-out, the slow-op line and the count. *)
Definition fetch_turn (slowOpThresholdMs : Z) (verbose : bool)
  (names : list string) (op : Op) : M WorkerState unit := fun s =>
  match fanout_run op verbose names (node_execs s) with
  | None => Panic s
  | Some (ws, lines) =>
    let latencies := map lastLatency ws in
    let wasAnyOpSlow :=
      (0 <? slowOpThresholdMs) && existsb (isSlow slowOpThresholdMs) latencies in
    Ret tt
      {| ops := ops s; node_execs := ws;
         opsExecuted_ := wrap64 (opsExecuted_ s + 1);
         error_lines := error_lines s ++ lines;
         slow_lines := slow_lines s
                       ++ (if wasAnyOpSlow then [(Type_ op, latencies)] else []) |}
  end.

(** [CanonicalizeOp] on the store of the worker. *)
Definition canonicalize (op : ptr) : M WorkerState (option ptr) := fun s =>
  match CanonicalizeOp op (ops s) with
  | Ret r h =>
    Ret r {| ops := h; node_execs := node_execs s; opsExecuted_ := opsExecuted_ s;
             error_lines := error_lines s; slow_lines := slow_lines s |}
  | Panic h =>
    Panic {| ops := h; node_execs := node_execs s; opsExecuted_ := opsExecuted_ s;
             error_lines := error_lines s; slow_lines := slow_lines s |}
  end.

(** The loop of [fetch] on what the worker receives from the channel of
    ops: pointers to ops, nil ([None]) included; at the end of the list the
    channel is closed, and a receive gives nil. *)
Fixpoint fetch (slowOpThresholdMs : Z) (verbose : bool) (names : list string)
  (received : list (option ptr)) : M WorkerState unit :=
  match received with
  | [] => mret tt
  | None :: _ => mret tt
  | Some op :: rest =>
    r ← canonicalize op;
    match r with
    | None => fetch slowOpThresholdMs verbose names rest
    | Some op' =>
      o ← (fun s => match ops s !! op' with
                    | Some o => Ret o s
                    | None => Panic s
                    end);
      fetch_turn slowOpThresholdMs verbose names o;;
      fetch slowOpThresholdMs verbose names rest
    end
  end.
(** ** Facts on runes *)

Module GoStringFacts.

Lemma byte_val_of z : 0 <= z < 256 -> byte_val (byte_of z) = z.
Proof.
  intros Hz. unfold byte_val, byte_of.
  rewrite N_ascii_embedding by lia. lia.
Qed.

Lemma byte_val_range a : 0 <= byte_val a < 256.
Proof.
  unfold byte_val. pose proof (N_ascii_bounded a). lia.
Qed.

Lemma append_String a s1 s2 : String a s1 +:+ s2 = String a (s1 +:+ s2).
Proof. reflexivity. Qed.

Lemma append_Empty s : EmptyString +:+ s = s.
Proof. reflexivity. Qed.

Lemma append_Empty_r s : s +:+ EmptyString = s.
Proof. induction s as [|a s IH]; [reflexivity|]. now rewrite append_String, IH. Qed.

Lemma append_assoc s1 s2 s3 : (s1 +:+ s2) +:+ s3 = s1 +:+ (s2 +:+ s3).
Proof.
  induction s1 as [|a s1 IH]; [reflexivity|].
  now rewrite !append_String, IH.
Qed.

Lemma length_append s1 s2 :
  String.length (s1 +:+ s2) = (String.length s1 + String.length s2)%nat.
Proof.
  induction s1 as [|a s1 IH]; [reflexivity|].
  rewrite append_String. simpl. now rewrite IH.
Qed.

Ltac decide_eqb :=
  repeat match goal with
    | |- context [?a =? ?b] => destruct (Z.eqb_spec a b); try lia
    end.

Ltac decide_tests :=
  decide_eqb;
  repeat match goal with
    | |- context [?a <? ?b] => destruct (Z.ltb_spec a b); try lia
    | |- context [?a <=? ?b] => destruct (Z.leb_spec a b); try lia
    end;
  cbn [andb orb negb].

(** Decoding what [encode_rune] wrote gives the rune back (or U+FFFD for a
    rune that is no scalar value), and reads exactly the bytes written. *)
Lemma decode_encode r s :
  decode_rune (encode_rune r +:+ s)
  = (if valid_rune r then r else RuneError, String.length (encode_rune r)).
Proof.
  unfold encode_rune, valid_rune.
  destruct (Z.leb_spec 0 r); simpl andb; [|reflexivity].
  destruct (Z.leb_spec r 1114111); simpl andb; [|reflexivity].
  destruct (Z.leb_spec 55296 r); simpl andb.
  1: destruct (Z.leb_spec r 57343); simpl andb; simpl negb; [reflexivity|].
  all: simpl negb; cbv iota.
  all: destruct (Z.ltb_spec r 128);
       [|destruct (Z.ltb_spec r 2048); [|destruct (Z.ltb_spec r 65536)]];
       try lia.
  all: unfold bytes; cbn [fold_right String.length];
       rewrite ?append_String, ?append_Empty; unfold decode_rune.
  all: rewrite ?byte_val_of by (Z.div_mod_to_equations; lia).
  all: Z.div_mod_to_equations; decide_tests.
  all: f_equal; lia.
Qed.

Lemma encode_rune_cons r : exists a c, encode_rune r = String a c.
Proof.
  unfold encode_rune.
  repeat match goal with |- context [if ?b then _ else _] => destruct b end;
    unfold bytes; cbn [fold_right]; eauto.
Qed.

Lemma runes_from_skip c s :
  runes_from (String.length c) (c +:+ s) = runes_from 0 s.
Proof.
  induction c as [|a c IH]; [reflexivity|].
  rewrite append_String. exact IH.
Qed.

(** What [range] reads back from an encoded rune. *)
Definition norm (r : Z) : Z := if valid_rune r then r else RuneError.

Lemma runes_encode_rune r s : runes (encode_rune r +:+ s) = norm r :: runes s.
Proof.
  pose proof (decode_encode r s) as Hd.
  destruct (encode_rune_cons r) as (a & c & Hc). rewrite Hc in *.
  unfold runes. rewrite append_String in *.
  cbn [runes_from]. rewrite Hd. cbn [String.length Nat.pred].
  now rewrite runes_from_skip.
Qed.

Lemma runes_encode_runes rs s :
  runes (encode_runes rs +:+ s) = map norm rs ++ runes s.
Proof.
  induction rs as [|r rs IH]; [reflexivity|].
  cbn [encode_runes fold_right map]. fold (encode_runes rs).
  now rewrite append_assoc, runes_encode_rune, IH.
Qed.

Lemma utf8_valid_encode k : utf8_valid k = true -> encode_runes (runes k) = k.
Proof. unfold utf8_valid. now intros H%String.eqb_eq. Qed.

(** The runes of well-formed UTF-8 do not depend on what follows it. *)
Lemma runes_app k s :
  utf8_valid k = true -> runes (k +:+ s) = runes k ++ runes s.
Proof.
  intros Hk%utf8_valid_encode.
  pose proof (runes_encode_runes (runes k) EmptyString) as H0.
  rewrite append_Empty_r, Hk in H0. cbn in H0. rewrite app_nil_r in H0.
  rewrite <- Hk at 1. now rewrite runes_encode_runes, <- H0.
Qed.

Lemma runes_ascii a s :
  byte_val a < 128 -> runes (String a s) = byte_val a :: runes s.
Proof.
  intros Ha. unfold runes. cbn [runes_from decode_rune].
  destruct (Z.ltb_spec (byte_val a) 128); [reflexivity|lia].
Qed.

Lemma drop_append a b : drop (String.length a) (a +:+ b) = b.
Proof. induction a as [|c a IH]; [reflexivity|]. now rewrite append_String. Qed.

Lemma slice_from_append a b : slice_from (a +:+ b) (len a) = Some b.
Proof.
  unfold slice_from, len. rewrite length_append, Nat2Z.id, drop_append.
  destruct (Z.leb_spec 0 (Z.of_nat (String.length a))); [|lia].
  destruct (Z.leb_spec (Z.of_nat (String.length a))
              (Z.of_nat (String.length a + String.length b))); [reflexivity|lia].
Qed.

End GoStringFacts.
Import GoStringFacts.

Module ScanFacts.

Ltac split_andb :=
  repeat match goal with
    | H : _ && _ = true |- _ => apply andb_prop in H as [? ?]
    end.

Lemma rune_free_Forall c s :
  rune_free c s = true -> Forall (fun r => r <> c) (runes s).
Proof.
  unfold rune_free. rewrite forallb_forall, List.Forall_forall.
  intros H r Hr. specialize (H r Hr).
  destruct (Z.eqb_spec r c); [discriminate|assumption].
Qed.

Lemma scan_gap0 g cs buffer args :
  Forall (fun r => r <> rune_quote) g ->
  Forall (fun r => r <> rune_rbrace) g ->
  scan (g ++ cs) 0 buffer args = scan cs 0 buffer args.
Proof.
  induction g as [|c g IH]; [reflexivity|].
  intros Hq Hb. apply Forall_cons_1 in Hq as [Hq1 Hq]. apply Forall_cons_1 in Hb as [Hb1 Hb].
  cbn [app scan].
  destruct (Z.eqb_spec c rune_rbrace); [contradiction|].
  destruct (Z.eqb_spec c rune_quote); [contradiction|].
  cbn. now apply IH.
Qed.

Lemma scan_name k cs buffer args :
  Forall (fun r => r <> rune_quote) k ->
  scan (k ++ rune_quote :: cs) 1 buffer args
  = scan cs 2 EmptyString (args ++ [buffer +:+ encode_runes k]).
Proof.
  revert buffer. induction k as [|c k IH]; intros buffer Hq.
  - cbn. now rewrite append_Empty_r.
  - apply Forall_cons_1 in Hq as [Hq1 Hq]. cbn [app scan].
    destruct (Z.eqb_spec c rune_quote); [contradiction|].
    cbn [Z.eqb andb]. rewrite IH by assumption.
    cbn [encode_runes fold_right]. now rewrite append_assoc.
Qed.

Lemma scan_gap2 m cs buffer args :
  Forall (fun r => r <> rune_minus) m ->
  Forall (fun r => r <> rune_one) m ->
  scan (m ++ cs) 2 buffer args = scan cs 2 buffer args.
Proof.
  induction m as [|c m IH]; [reflexivity|].
  intros Hm Ho. apply Forall_cons_1 in Hm as [Hm1 Hm]. apply Forall_cons_1 in Ho as [Ho1 Ho].
  cbn [app scan].
  destruct (Z.eqb_spec c rune_minus); [contradiction|].
  destruct (Z.eqb_spec c rune_one); [contradiction|].
  cbn. now apply IH.
Qed.

Lemma last_lookup (args : list string) x :
  (args ++ [x]) !! (length (args ++ [x]) - 1)%nat = Some x.
Proof.
  rewrite length_app. cbn [length].
  replace (length args + 1 - 1)%nat with (length args) by lia.
  apply list_lookup_middle. reflexivity.
Qed.

Lemma last_insert (args : list string) x y :
  <[(length (args ++ [x]) - 1)%nat := y]> (args ++ [x]) = args ++ [y].
Proof.
  rewrite length_app. cbn [length].
  replace (length args + 1 - 1)%nat with (length args + 0)%nat by lia.
  now rewrite insert_app_r.
Qed.

Lemma scan_minus cs buffer (args : list string) x :
  scan (rune_minus :: cs) 2 buffer (args ++ [x])
  = scan cs 2 buffer (args ++ ["-" +:+ x]).
Proof.
  cbn [scan]. cbn [Z.eqb andb rune_minus Pos.eqb].
  now rewrite last_lookup, last_insert.
Qed.

Lemma runes_dq s : runes (dq +:+ s) = rune_quote :: runes s.
Proof. unfold dq. rewrite append_String, append_Empty. now apply runes_ascii. Qed.

Lemma runes_dir (neg : bool) s :
  runes ((if neg then "-1" else "1") +:+ s)
  = (if neg then [rune_minus] else []) ++ rune_one :: runes s.
Proof.
  destruct neg; rewrite ?append_String, append_Empty;
    rewrite ?runes_ascii by (vm_compute; reflexivity); reflexivity.
Qed.

(** One entry read from state 0 appends its argument and is back in
    state 0 with an empty buffer. *)
Lemma scan_entry e rest args :
  entry_ok e = true ->
  scan (runes (entry_text e +:+ rest)) 0 EmptyString args
  = scan (runes rest) 0 EmptyString (args ++ [entry_arg e]).
Proof.
  unfold entry_ok, gap_ok, name_ok, mid_ok, entry_text, entry_arg, quoted.
  intros H. split_andb.
  rewrite !append_assoc.
  rewrite runes_app, runes_dq, runes_app, runes_dq, runes_app, runes_dir
    by assumption.
  rewrite scan_gap0 by now apply rune_free_Forall.
  cbn [scan]. cbn [Z.eqb andb rune_quote rune_rbrace Pos.eqb].
  rewrite scan_name by now apply rune_free_Forall.
  rewrite append_Empty, utf8_valid_encode by assumption.
  rewrite scan_gap2 by now apply rune_free_Forall.
  destruct (e_neg e); cbn [app]; rewrite ?scan_minus; reflexivity.
Qed.

Lemma scan_entries es rest args :
  forallb entry_ok es = true ->
  scan (runes (entries_text es +:+ rest)) 0 EmptyString args
  = scan (runes rest) 0 EmptyString (args ++ map entry_arg es).
Proof.
  revert args. induction es as [|e es IH]; intros args H.
  - cbn. now rewrite append_Empty, app_nil_r.
  - cbn [forallb] in H. apply andb_prop in H as [He Hes].
    cbn [entries_text fold_right map]. fold (entries_text es).
    rewrite append_assoc, scan_entry, IH by assumption.
    now rewrite <- app_assoc.
Qed.

Lemma scan_mapping sep es g post :
  gap_ok sep = true -> forallb entry_ok es = true -> gap_ok g = true ->
  scan (runes (sep +:+ mapping_text es g +:+ post)) 0 EmptyString []
  = Some (map entry_arg es).
Proof.
  unfold gap_ok, mapping_text. intros Hs Hes Hg.
  split_andb.
  rewrite !append_assoc, runes_app by assumption.
  rewrite scan_gap0 by now apply rune_free_Forall.
  rewrite append_String, append_Empty, runes_ascii by (vm_compute; reflexivity).
  change (byte_val "{"%char) with 123.
  cbn [scan Z.eqb andb Pos.eqb rune_rbrace rune_quote].
  rewrite scan_entries by assumption.
  rewrite runes_app by assumption.
  rewrite scan_gap0 by now apply rune_free_Forall.
  rewrite append_String, append_Empty, runes_ascii by (vm_compute; reflexivity).
  reflexivity.
Qed.

Lemma len_quoted key : len (quoted key) = len key + 2.
Proof.
  unfold len, quoted, dq. rewrite !length_append. cbn [String.length]. lia.
Qed.

(** The parser cannot panic: in state 2 a key has been appended. *)
Lemma scan_total cs state buffer (args : list string) :
  (state = 2 -> args <> []) -> is_Some (scan cs state buffer args).
Proof.
  revert state buffer args.
  induction cs as [|c cs IH]; intros state buffer args Hinv; [now eexists|].
  cbn [scan].
  destruct (Z.eqb_spec state 0) as [->|H0]; cbn [andb].
  - destruct (c =? rune_rbrace); [now eexists|].
    destruct (c =? rune_quote); apply IH; discriminate.
  - destruct (Z.eqb_spec state 1) as [->|H1].
    + destruct (c =? rune_quote); apply IH; try discriminate.
      intros _. now destruct args.
    + destruct (Z.eqb_spec state 2) as [->|H2]; cbn [andb]; [|now apply IH].
      destruct (c =? rune_minus).
      * destruct (args !! (length args - 1)%nat) as [last|] eqn:Hl.
        -- apply IH. intros _ Hn%(f_equal length).
           rewrite length_insert in Hn. destruct args; [now apply Hinv|discriminate].
        -- exfalso. apply lookup_ge_None in Hl.
           destruct args; [now apply Hinv|cbn in Hl; lia].
      * destruct (c =? rune_one); apply IH; auto; discriminate.
Qed.

End ScanFacts.

(** ** The canonicalizer *)

Module Canonicalizer.

Ltac run :=
  unfold assign; unfold mbind, M_bind, mret, M_ret, deref, modify, panic, gets, lift.

Lemma assign_run (h : Heap) op o f :
  h !! op = Some o -> assign op f h = Ret tt (<[op := f o]> h).
Proof. intros H. run. now rewrite H. Qed.

(** One turn of the loop that finds its key with a string value. *)
Lemma canonicalize_loop_hit (h : Heap) op o cmd name names c :
  h !! op = Some o -> cmd !! name = Some (VString c) ->
  canonicalize_loop op cmd (name :: names) h
  = Ret (Some op) (<[op := canonical ("command." +:+ name) c cmd o]> h).
Proof.
  intros Ho Hc. cbn [canonicalize_loop]. rewrite Hc.
  unfold mbind, M_bind. rewrite (assign_run h op o) by assumption.
  rewrite (assign_run _ op (set_Type _ o)) by apply lookup_insert_eq.
  rewrite (assign_run _ op (set_Collection c (set_Type _ o)))
    by apply lookup_insert_eq.
  rewrite !insert_insert_eq. reflexivity.
Qed.

Lemma canonicalize_loop_miss (h : Heap) op cmd name names :
  cmd !! name = None ->
  canonicalize_loop op cmd (name :: names) h = canonicalize_loop op cmd names h.
Proof. intros Hc. cbn [canonicalize_loop]. now rewrite Hc. Qed.

(** One turn of the loop that finds its key with a value that is no string:
    the type has been overwritten when the type assertion panics. *)
Lemma canonicalize_loop_bad (h : Heap) op o cmd name names v :
  h !! op = Some o -> cmd !! name = Some v ->
  (forall c, v <> VString c) ->
  canonicalize_loop op cmd (name :: names) h
  = Panic (<[op := set_Type ("command." +:+ name) o]> h).
Proof.
  intros Ho Hc Hv. cbn [canonicalize_loop]. rewrite Hc.
  unfold mbind, M_bind. rewrite (assign_run h op o) by assumption.
  destruct v; try reflexivity. now destruct (Hv s).
Qed.

Lemma CanonicalizeOp_other (h : Heap) op o :
  h !! op = Some o -> Type_ o <> Command ->
  CanonicalizeOp op h = Ret (Some op) h.
Proof.
  intros Ho Ht. unfold CanonicalizeOp. run. rewrite Ho.
  destruct (String.eqb_spec (Type_ o) Command); [contradiction|reflexivity].
Qed.

Lemma CanonicalizeOp_command (h : Heap) op o cmd :
  h !! op = Some o -> Type_ o = Command ->
  index (Content o) "command" = VMap cmd ->
  CanonicalizeOp op h = canonicalize_loop op cmd ["findandmodify"; "count"] h.
Proof.
  intros Ho Ht Hc. unfold CanonicalizeOp. run. rewrite Ho, Ht, Hc. reflexivity.
Qed.

Lemma CanonicalizeOp_no_mapping (h : Heap) op o :
  h !! op = Some o -> Type_ o = Command ->
  (forall cmd, index (Content o) "command" <> VMap cmd) ->
  CanonicalizeOp op h = Panic h.
Proof.
  intros Ho Ht Hc. unfold CanonicalizeOp. run. rewrite Ho, Ht. cbn.
  destruct (index (Content o) "command"); try reflexivity. now destruct (Hc m).
Qed.

(** The states the loop can end in: the store as it was, or with the record
    at [op] rewritten; the pointer returned is [op] or nil. *)
Lemma canonicalize_loop_frame (h : Heap) op o cmd names :
  h !! op = Some o ->
  let res := canonicalize_loop op cmd names h in
  (res = Ret None h /\ Forall (fun n => cmd !! n = None) names)
  \/ (exists name c, res = Ret (Some op) (<[op := canonical ("command." +:+ name) c cmd o]> h)
                     /\ name ∈ names /\ cmd !! name = Some (VString c))
  \/ (exists name, res = Panic (<[op := set_Type ("command." +:+ name) o]> h)
                   /\ name ∈ names).
Proof.
  intros Ho. induction names as [|name names IH]; cbn zeta.
  - left. split; [reflexivity|constructor].
  - destruct (cmd !! name) as [v|] eqn:Hc.
    + right. destruct v;
        try (right; exists name; split; [|apply list_elem_of_here];
             apply (canonicalize_loop_bad h op o cmd name names _ Ho Hc); discriminate).
      left. exists name, s. split; [|split; [apply list_elem_of_here|assumption]].
      now apply canonicalize_loop_hit.
    + rewrite canonicalize_loop_miss by assumption.
      destruct IH as [[-> HF]|[(n & c & -> & Hin & Hn)|(n & -> & Hin)]].
      * left. split; [reflexivity|]. now constructor.
      * right; left. exists n, c. repeat split; [now apply list_elem_of_further|assumption].
      * right; right. exists n. split; [reflexivity|now apply list_elem_of_further].
Qed.

End Canonicalizer.

Definition op_count : Op :=
  {| Database := "app"; Collection := "$cmd"; Type_ := Command; Timestamp := 0;
     Content := {[ "command" := VMap {[ "count" := VString "users" ]} ]};
     TextContent := "" |}.

Definition op_no_command : Op :=
  {| Database := "app"; Collection := "$cmd"; Type_ := Command; Timestamp := 0;
     Content := ∅; TextContent := "" |}.

Definition op_count_number : Op :=
  {| Database := "app"; Collection := "$cmd"; Type_ := Command; Timestamp := 0;
     Content := {[ "command" := VMap {[ "count" := VInt32 7 ]} ]};
     TextContent := "" |}.

(** C1 as stated fails: a command-typed Op without a mapping under
    [command] has neither key, and [CanonicalizeOp] panics on it instead of
    returning nil; so it does on one whose [count] value is no string (after
    it has overwritten the type). *)
Lemma CanonicalizeOp_drop_counterexample :
  Type_ op_no_command = Command
  /\ index (Content op_no_command) "command" = VNil
  /\ CanonicalizeOp 1%nat {[ 1%nat := op_no_command ]} = Panic {[ 1%nat := op_no_command ]}
  /\ CanonicalizeOp 1%nat {[ 1%nat := op_count_number ]}
     = Panic {[ 1%nat := set_Type Count op_count_number ]}.
Proof. repeat split; vm_compute; reflexivity. Qed.

(** C1 (amended): for every command-typed Op whose [content.command] is a
    mapping, [CanonicalizeOp] returns the Op with type command.findandmodify,
    the collection and the inner mapping as content when the mapping has a
    findandmodify key with a string value; with type command.count likewise
    when it has no findandmodify key and a count key with a string value;
    and nil when it has neither key.  For an Op whose type is not command it
    returns the input unchanged. *)
Theorem CanonicalizeOp_result (h : Heap) (op : ptr) (o : Op) :
  h !! op = Some o ->
  (Type_ o <> Command -> CanonicalizeOp op h = Ret (Some op) h)
  /\ (forall cmd, Type_ o = Command -> index (Content o) "command" = VMap cmd ->
      (forall c, cmd !! "findandmodify" = Some (VString c) ->
         CanonicalizeOp op h
         = Ret (Some op) (<[op := canonical FindAndModify c cmd o]> h))
      /\ (forall c, cmd !! "findandmodify" = None ->
                    cmd !! "count" = Some (VString c) ->
         CanonicalizeOp op h = Ret (Some op) (<[op := canonical Count c cmd o]> h))
      /\ (cmd !! "findandmodify" = None -> cmd !! "count" = None ->
         CanonicalizeOp op h = Ret None h)).
Proof.
  intros Ho. split; [now apply Canonicalizer.CanonicalizeOp_other|].
  intros cmd Ht Hc.
  rewrite (Canonicalizer.CanonicalizeOp_command h op o cmd) by assumption.
  repeat split.
  - intros c Hf.
    now rewrite (Canonicalizer.canonicalize_loop_hit h op o cmd _ _ c Ho Hf).
  - intros c Hf Hn. rewrite Canonicalizer.canonicalize_loop_miss by assumption.
    now rewrite (Canonicalizer.canonicalize_loop_hit h op o cmd _ _ c Ho Hn).
  - intros Hf Hn. now rewrite !Canonicalizer.canonicalize_loop_miss by assumption.
Qed.

Lemma CanonicalizeOp_result_witness :
  CanonicalizeOp 1%nat {[ 1%nat := op_count ]}
  = Ret (Some 1%nat)
      (<[1%nat := canonical Count "users" {[ "count" := VString "users" ]} op_count]>
         {[ 1%nat := op_count ]}).
Proof.
  refine (proj1 (proj2 (proj2 (CanonicalizeOp_result {[ 1%nat := op_count ]} 1%nat op_count _)
            {[ "count" := VString "users" ]} _ _)) "users" _ _);
    reflexivity.
Defined.

(** C6 as stated fails: canonicalizing a count command overwrites the type,
    the collection and the content of the caller's record. *)
Lemma CanonicalizeOp_mutates_counterexample :
  exists o',
    final (CanonicalizeOp 1%nat {[ 1%nat := op_count ]}) !! 1%nat = Some o'
    /\ Type_ o' = Count /\ Type_ op_count = Command
    /\ Collection o' = "users" /\ Collection op_count = "$cmd"
    /\ Content o' <> Content op_count.
Proof.
  eexists. split; [vm_compute; reflexivity|].
  repeat split. intros H%(f_equal (fun m : Document => m !! "count")).
  vm_compute in H. discriminate.
Qed.

(** C6 (amended): [CanonicalizeOp] touches no record but the one it is
    given, and never its database, timestamp and textual content; it leaves
    that record as it was when the type is not command (the Op returned is
    the input, unchanged) and when it returns nil; an Op it returns is the
    caller's record itself, which for a command it has rewritten in place:
    type, collection and content are overwritten. *)
Theorem CanonicalizeOp_frame (h : Heap) (op : ptr) (o : Op) :
  h !! op = Some o ->
  let res := CanonicalizeOp op h in
  (forall p, p <> op -> final res !! p = h !! p)
  /\ (exists o', final res !! op = Some o' /\ Database o' = Database o
                 /\ Timestamp o' = Timestamp o /\ TextContent o' = TextContent o)
  /\ (Type_ o <> Command -> res = Ret (Some op) h)
  /\ (forall h', res = Ret None h' -> h' = h)
  /\ (forall p h', res = Ret (Some p) h' -> p = op)
  /\ (Type_ o = Command -> forall p h', res = Ret (Some p) h' ->
      exists t c cmd, index (Content o) "command" = VMap cmd
        /\ cmd !! t = Some (VString c)
        /\ h' = <[op := canonical ("command." +:+ t) c cmd o]> h).
Proof.
  intros Ho res.
  destruct (String.eqb_spec (Type_ o) Command) as [Ht|Ht].
  2:{ subst res. rewrite (Canonicalizer.CanonicalizeOp_other h op o) by assumption.
      cbn [final]. repeat split; try congruence. eauto. }
  destruct (index (Content o) "command") as [| | | | | | | | |cmd] eqn:Hc.
  1-9: subst res;
       rewrite (Canonicalizer.CanonicalizeOp_no_mapping h op o) by (congruence || (intros ?; congruence));
       cbn [final]; repeat split; try congruence; eauto.
  subst res. rewrite (Canonicalizer.CanonicalizeOp_command h op o cmd) by assumption.
  destruct (Canonicalizer.canonicalize_loop_frame h op o cmd ["findandmodify"; "count"] Ho)
    as [[-> _]|[(n & c & -> & _ & Hn)|(n & -> & _)]]; cbn [final].
  - repeat split; try congruence. eauto.
  - repeat split; try congruence.
    + intros p Hp. now rewrite lookup_insert_ne.
    + rewrite lookup_insert_eq. eauto.
    + intros _ p h' [= <- <-]. eauto 6.
  - repeat split; try congruence.
    + intros p Hp. now rewrite lookup_insert_ne.
    + rewrite lookup_insert_eq. eauto.
Qed.

Lemma CanonicalizeOp_frame_witness :
  exists o',
    final (CanonicalizeOp 1%nat {[ 1%nat := op_count ]}) !! 1%nat = Some o'
    /\ Database o' = Database op_count /\ Timestamp o' = Timestamp op_count
    /\ TextContent o' = TextContent op_count.
Proof.
  exact (proj1 (proj2
    (CanonicalizeOp_frame {[ 1%nat := op_count ]} 1%nat op_count eq_refl))).
Defined.

(** ** The retry policy *)

Module RetryFacts.

Section Generic.
Context {S : Type} (Refresh_ : S -> S) (Error_ : string -> error -> S -> S).
Context (block : M S (option error)).

Lemma retry_panic s s1 :
  block s = Panic s1 -> retryOnSocketFailure Refresh_ Error_ block s = Panic s1.
Proof. intros H. unfold retryOnSocketFailure, mbind, M_bind. now rewrite H. Qed.

Lemma retry_success s s1 :
  block s = Ret None s1 -> retryOnSocketFailure Refresh_ Error_ block s = Ret None s1.
Proof. intros H. unfold retryOnSocketFailure, mbind, M_bind. now rewrite H. Qed.

Lemma retry_final_error s s1 e :
  block s = Ret (Some e) s1 -> no_retry e = true ->
  retryOnSocketFailure Refresh_ Error_ block s = Ret (Some e) s1.
Proof.
  intros H He. unfold retryOnSocketFailure, mbind, M_bind. now rewrite H, He.
Qed.

Lemma retry_again s s1 e :
  block s = Ret (Some e) s1 -> no_retry e = false ->
  retryOnSocketFailure Refresh_ Error_ block s
  = block (Error_ "retrying mongo query after error: " e (Refresh_ s1)).
Proof.
  intros H He. unfold retryOnSocketFailure, mbind, M_bind. now rewrite H, He.
Qed.

(** Anything that every run of [block], [Refresh] and [logger.Error] keeps,
    [retryOnSocketFailure] keeps. *)
Lemma retry_preserves {X} (f : S -> X) :
  (forall s, f (final (block s)) = f s) ->
  (forall s, f (Refresh_ s) = f s) ->
  (forall m e s, f (Error_ m e s) = f s) ->
  forall s, f (final (retryOnSocketFailure Refresh_ Error_ block s)) = f s.
Proof.
  intros Hb Hr He s. pose proof (Hb s) as Hs.
  destruct (block s) as [[e|] s1|s1] eqn:Hbs.
  - destruct (no_retry e) eqn:Hn.
    + now rewrite (retry_final_error s s1 e).
    + rewrite (retry_again s s1 e) by assumption.
      now rewrite Hb, He, Hr.
  - now rewrite (retry_success s s1).
  - now rewrite (retry_panic s s1).
Qed.

End Generic.

Lemma no_retry_cases e :
  no_retry e = true
  <-> (exists c m, e = QueryError c m) \/ (exists c m, e = LastError c m)
      \/ e = ErrNotFound \/ e = NotSupported.
Proof.
  split.
  - destruct e; try discriminate; eauto 6.
  - intros [(c & m & ->)|[(c & m & ->)|[->| ->]]]; reflexivity.
Qed.

End RetryFacts.

(** C2: [retryOnSocketFailure] runs the call once; a success, a query error,
    a last-error response, not-found or the sentinel for an unsupported type
    is returned as it is, with no retry and no refresh; on any other error
    the session is refreshed once and the call is run exactly once more, and
    what that run gives is the result.  The runs are counted by [attempts]
    and the refreshes by [refreshes], two observations of the state that
    each run of the call and each refresh bump by one; no invocation makes
    more than two attempts. *)
Theorem retryOnSocketFailure_attempts {St : Type}
  (Refresh_ : St -> St) (Error_ : string -> error -> St -> St)
  (block : M St (option error)) (attempts refreshes : St -> nat) :
  (forall s, attempts (final (block s)) = S (attempts s)
             /\ refreshes (final (block s)) = refreshes s) ->
  (forall s, attempts (Refresh_ s) = attempts s
             /\ refreshes (Refresh_ s) = S (refreshes s)) ->
  (forall m e s, attempts (Error_ m e s) = attempts s
                 /\ refreshes (Error_ m e s) = refreshes s) ->
  forall s,
    let out := retryOnSocketFailure Refresh_ Error_ block s in
    (forall s1, block s = Ret None s1 ->
       out = Ret None s1 /\ attempts (final out) = S (attempts s)
       /\ refreshes (final out) = refreshes s)
    /\ (forall e s1, block s = Ret (Some e) s1 ->
          ((exists c m, e = QueryError c m) \/ (exists c m, e = LastError c m)
           \/ e = ErrNotFound \/ e = NotSupported) ->
          out = Ret (Some e) s1 /\ attempts (final out) = S (attempts s)
          /\ refreshes (final out) = refreshes s)
    /\ (forall e s1, block s = Ret (Some e) s1 ->
          ~ ((exists c m, e = QueryError c m) \/ (exists c m, e = LastError c m)
             \/ e = ErrNotFound \/ e = NotSupported) ->
          out = block (Error_ "retrying mongo query after error: " e (Refresh_ s1))
          /\ attempts (final out) = S (S (attempts s))
          /\ refreshes (final out) = S (refreshes s))
    /\ (S (attempts s) <= attempts (final out) <= S (S (attempts s)))%nat.
Proof.
  intros Hb Hr He s out. subst out.
  pose proof (Hb s) as [Ha1 Hr1].
  repeat split.
  - now apply RetryFacts.retry_success.
  - rewrite (RetryFacts.retry_success _ _ _ s s1) by assumption.
    rewrite H in Ha1. exact Ha1.
  - rewrite (RetryFacts.retry_success _ _ _ s s1) by assumption.
    rewrite H in Hr1. exact Hr1.
  - apply RetryFacts.retry_final_error; [assumption|].
    now apply RetryFacts.no_retry_cases.
  - rewrite (RetryFacts.retry_final_error _ _ _ s s1 e) by
      (assumption || now apply RetryFacts.no_retry_cases).
    rewrite H in Ha1. exact Ha1.
  - rewrite (RetryFacts.retry_final_error _ _ _ s s1 e) by
      (assumption || now apply RetryFacts.no_retry_cases).
    rewrite H in Hr1. exact Hr1.
  - apply RetryFacts.retry_again; [assumption|].
    destruct (no_retry e) eqn:Hn; [|reflexivity].
    apply RetryFacts.no_retry_cases in Hn. contradiction.
  - rewrite (RetryFacts.retry_again _ _ _ s s1 e); [| assumption |].
    + rewrite H in Ha1. cbn [final] in Ha1.
      destruct (Hb (Error_ "retrying mongo query after error: " e (Refresh_ s1))) as [-> _].
      destruct (He "retrying mongo query after error: " e (Refresh_ s1)) as [-> _].
      destruct (Hr s1) as [-> _]. lia.
    + destruct (no_retry e) eqn:Hn; [|reflexivity].
      apply RetryFacts.no_retry_cases in Hn. contradiction.
  - rewrite (RetryFacts.retry_again _ _ _ s s1 e); [| assumption |].
    + rewrite H in Hr1. cbn [final] in Hr1.
      destruct (Hb (Error_ "retrying mongo query after error: " e (Refresh_ s1))) as [_ ->].
      destruct (He "retrying mongo query after error: " e (Refresh_ s1)) as [_ ->].
      destruct (Hr s1) as [_ ->]. lia.
    + destruct (no_retry e) eqn:Hn; [|reflexivity].
      apply RetryFacts.no_retry_cases in Hn. contradiction.
  - destruct (block s) as [[e|] s1|s1] eqn:Hbs.
    + destruct (no_retry e) eqn:Hn.
      * rewrite (RetryFacts.retry_final_error _ _ _ s s1 e) by assumption.
        cbn [final] in *. lia.
      * rewrite (RetryFacts.retry_again _ _ _ s s1 e) by assumption.
        destruct (Hb (Error_ "retrying mongo query after error: " e (Refresh_ s1))) as [-> _].
        destruct (He "retrying mongo query after error: " e (Refresh_ s1)) as [-> _].
        destruct (Hr s1) as [-> _]. cbn [final] in *. lia.
    + rewrite (RetryFacts.retry_success _ _ _ s s1) by assumption. cbn [final] in *. lia.
    + rewrite (RetryFacts.retry_panic _ _ _ s s1) by assumption. cbn [final] in *. lia.
  - destruct (block s) as [[e|] s1|s1] eqn:Hbs.
    + destruct (no_retry e) eqn:Hn.
      * rewrite (RetryFacts.retry_final_error _ _ _ s s1 e) by assumption.
        cbn [final] in *. lia.
      * rewrite (RetryFacts.retry_again _ _ _ s s1 e) by assumption.
        destruct (Hb (Error_ "retrying mongo query after error: " e (Refresh_ s1))) as [-> _].
        destruct (He "retrying mongo query after error: " e (Refresh_ s1)) as [-> _].
        destruct (Hr s1) as [-> _]. cbn [final] in *. lia.
    + rewrite (RetryFacts.retry_success _ _ _ s s1) by assumption. cbn [final] in *. lia.
    + rewrite (RetryFacts.retry_panic _ _ _ s s1) by assumption. cbn [final] in *. lia.
Qed.

(** A call that fails with a socket error whenever it is run, on a state
    that counts the runs and the refreshes. *)
Definition always_eof : M (nat * nat) (option error) :=
  fun s => Ret (Some (OtherError "EOF")) (S (fst s), snd s).

Lemma retryOnSocketFailure_attempts_witness :
  retryOnSocketFailure (fun s => (fst s, S (snd s))) (fun _ _ s => s) always_eof (0, 0)%nat
  = Ret (Some (OtherError "EOF")) (2, 1)%nat.
Proof.
  refine (proj1 (proj1 (proj2 (proj2
    (retryOnSocketFailure_attempts (fun s => (fst s, S (snd s))) (fun _ _ s => s)
       always_eof fst snd _ _ _ (0, 0)%nat))) (OtherError "EOF") (1, 0)%nat _ _)).
  - intros s. split; reflexivity.
  - intros s. split; reflexivity.
  - intros m e s. split; reflexivity.
  - reflexivity.
  - intros [(c & m & H)|[(c & m & H)|[H|H]]]; discriminate.
Defined.

(** ** What the executor changes *)

Module ExecutorFacts.

(** What a run of a sub-executor leaves alone or moves forward: the channel
    and the last latency are untouched, the replies to come are the same,
    and the clock has moved by the time of the requests served. *)
Record frame (w w' : World) : Prop := {
  frame_chan : statsChan w' = statsChan w;
  frame_latency : lastLatency w' = lastLatency w;
  frame_driver : driver w' = driver w;
  frame_served : (served w <= served w')%nat;
  frame_clock :
    clock w' = clock w + elapsed (driver w) (served w) (served w' - served w);
}.

Lemma elapsed_app d from n m :
  elapsed d from (n + m) = elapsed d from n + elapsed d (from + n) m.
Proof.
  revert from. induction n as [|n IH]; intros from; cbn [elapsed Nat.add].
  - now rewrite Nat.add_0_r.
  - rewrite IH. replace (S from + n)%nat with (from + S n)%nat by lia. lia.
Qed.

Lemma frame_refl w : frame w w.
Proof.
  split; try reflexivity. rewrite Nat.sub_diag. cbn. lia.
Qed.

Lemma frame_trans w1 w2 w3 : frame w1 w2 -> frame w2 w3 -> frame w1 w3.
Proof.
  intros [C1 L1 D1 S1 K1] [C2 L2 D2 S2 K2]. split; try congruence; [lia|].
  rewrite K2, K1, D1.
  replace (served w3 - served w1)%nat
    with ((served w2 - served w1) + (served w3 - served w2))%nat by lia.
  rewrite elapsed_app.
  replace (served w1 + (served w2 - served w1))%nat with (served w2) by lia. lia.
Qed.

Definition framed {A} (m : M World A) : Prop := forall w, frame w (final (m w)).

Lemma framed_bind {A B} (m : M World A) (k : A -> M World B) :
  framed m -> (forall a, framed (k a)) -> framed (m ≫= k).
Proof.
  intros Hm Hk w. unfold mbind, M_bind. specialize (Hm w).
  destruct (m w) as [a w1|w1]; cbn [final] in *; [|assumption].
  eapply frame_trans; [eassumption|apply Hk].
Qed.

Lemma framed_mret {A} (a : A) : framed (mret a).
Proof. intros w. apply frame_refl. Qed.

Lemma framed_panic {A} : framed (@panic World A).
Proof. intros w. apply frame_refl. Qed.

Lemma framed_lift {A} (o : option A) : framed (lift o).
Proof. destruct o; [apply framed_mret|apply framed_panic]. Qed.

Lemma frame_emit ev w : frame w (emit ev w).
Proof. split; try reflexivity. cbn. rewrite Nat.sub_diag. cbn. lia. Qed.

Lemma framed_log msg e : framed (modify (logError msg e)).
Proof. intros w. apply frame_emit. Qed.

Lemma framed_refresh : framed (modify Refresh).
Proof. intros w. apply frame_emit. Qed.

Lemma framed_request r : framed (request r).
Proof.
  intros w. split; cbn; try reflexivity; [lia|].
  replace (S (served w) - served w)%nat with 1%nat by lia. cbn. lia.
Qed.

Lemma framed_set_lastResult r : framed (modify (set_lastResult r)).
Proof. intros w. split; try reflexivity. cbn. rewrite Nat.sub_diag. cbn. lia. Qed.

Create HintDb framed.
#[local] Hint Resolve framed_mret framed_panic framed_lift framed_log
  framed_refresh framed_request framed_set_lastResult : framed.

Ltac framed_tac :=
  repeat first
    [ progress auto with framed
    | apply framed_bind; [|intros ?]
    | match goal with
      | |- framed (if ?b then _ else _) => destruct b
      | |- framed (match ?v with _ => _ end) => destruct v
      end ].

Lemma framed_findQuery content text : framed (findQuery content text).
Proof. unfold findQuery. framed_tac. Qed.

Lemma framed_setLimit content q : framed (setLimit content q).
Proof. unfold setLimit. framed_tac. Qed.

Lemma framed_setSkip content q : framed (setSkip content q).
Proof. unfold setSkip. framed_tac. Qed.

#[local] Hint Resolve framed_findQuery framed_setLimit framed_setSkip : framed.

Lemma framed_execQuery content text coll : framed (execQuery content text coll).
Proof. unfold execQuery. framed_tac. Qed.

Lemma framed_execInsert content text coll : framed (execInsert content text coll).
Proof. unfold execInsert. framed_tac. Qed.

Lemma framed_execUpdate content text coll : framed (execUpdate content text coll).
Proof. unfold execUpdate. framed_tac. Qed.

Lemma framed_execRemove content text coll : framed (execRemove content text coll).
Proof. unfold execRemove. framed_tac. Qed.

Lemma framed_execCount content text coll : framed (execCount content text coll).
Proof. unfold execCount. framed_tac. Qed.

Lemma framed_execFindAndModify content text coll :
  framed (execFindAndModify content text coll).
Proof. unfold execFindAndModify. framed_tac. Qed.

(** The keys of [subExecutes] are the six types of [AllOpTypes]. *)
Lemma subExecutes_lookup t :
  subExecutes !! t =
    if decide (t = Query) then Some execQuery
    else if decide (t = Insert) then Some execInsert
    else if decide (t = Update) then Some execUpdate
    else if decide (t = Remove) then Some execRemove
    else if decide (t = Count) then Some execCount
    else if decide (t = FindAndModify) then Some execFindAndModify
    else None.
Proof.
  unfold subExecutes.
  repeat (case_decide;
          [subst; reflexivity|rewrite lookup_insert_ne by congruence]).
  apply lookup_empty.
Qed.

Lemma subExecutes_None t : subExecutes !! t = None <-> t ∉ AllOpTypes.
Proof.
  rewrite subExecutes_lookup. unfold AllOpTypes.
  rewrite !not_elem_of_cons.
  repeat case_decide; split; try discriminate; try tauto.
  intros _. repeat split; try assumption. apply not_elem_of_nil.
Qed.

Lemma framed_block op : framed (block op).
Proof.
  unfold block. rewrite subExecutes_lookup.
  repeat case_decide;
    auto using framed_execQuery, framed_execInsert, framed_execUpdate,
      framed_execRemove, framed_execCount, framed_execFindAndModify, framed_panic.
Qed.

Lemma framed_retry op : framed (retryOnSocketFailure Refresh logError (block op)).
Proof.
  unfold retryOnSocketFailure.
  apply framed_bind; [apply framed_block|intros [e|]; [|apply framed_mret]].
  destruct (no_retry e); [apply framed_mret|].
  repeat (apply framed_bind; [|intros ?]);
    auto using framed_block, framed_refresh, framed_log.
Qed.

End ExecutorFacts.

Module ExecuteFacts.
Import ExecutorFacts.

Ltac run :=
  unfold Now, send; unfold mbind, M_bind, mret, M_ret, modify, panic, gets, lift.

(** [Execute] step by step, from the result of the retried call. *)
Lemma Execute_run op w :
  Execute op w =
    match retryOnSocketFailure Refresh logError (block op) w with
    | Panic wr => Panic wr
    | Ret err wr =>
      let latencyOp := clock wr - clock w in
      let w1 := set_lastLatency latencyOp wr in
      Ret err
        (match statsChan wr with
         | Some q =>
           set_statsChan
             (Some (q ++ [{| OpType_ := Type_ op; Latency := latencyOp;
                             OpError := if err is Some _ then true else false |}])) w1
         | None => w1
         end)
    end.
Proof.
  unfold Execute. run.
  destruct (retryOnSocketFailure Refresh logError (block op) w) as [err wr|wr];
    [|reflexivity].
  cbn. destruct (statsChan wr) eqn:Hc, err; cbn; rewrite ?Hc; reflexivity.
Qed.

(** Computations that send nothing to the database. *)
Definition quiet {A} (m : M World A) : Prop :=
  forall w, served (final (m w)) = served w.

Lemma quiet_bind {A B} (m : M World A) (k : A -> M World B) :
  quiet m -> (forall a, quiet (k a)) -> quiet (m ≫= k).
Proof.
  intros Hm Hk w. unfold mbind, M_bind. specialize (Hm w).
  destruct (m w) as [a w1|w1]; cbn [final] in *; [|assumption].
  now rewrite Hk.
Qed.

Lemma quiet_mret {A} (a : A) : quiet (mret a).
Proof. intros w. reflexivity. Qed.

Lemma quiet_panic {A} : quiet (@panic World A).
Proof. intros w. reflexivity. Qed.

Lemma quiet_lift {A} (o : option A) : quiet (lift o).
Proof. destruct o; [apply quiet_mret|apply quiet_panic]. Qed.

Lemma quiet_log msg e : quiet (modify (logError msg e)).
Proof. intros w. reflexivity. Qed.

Ltac quiet_tac :=
  repeat first
    [ apply quiet_mret | apply quiet_panic | apply quiet_lift | apply quiet_log
    | apply quiet_bind; [|intros ?]
    | match goal with
      | |- quiet (if ?b then _ else _) => destruct b
      | |- quiet (match ?v with _ => _ end) => destruct v
      end ].

(** The three blocks of [execQuery] before the request send nothing to the
    database. *)
Lemma findQuery_served content text w :
  served (final (findQuery content text w)) = served w.
Proof. revert w. change (quiet (findQuery content text)). unfold findQuery. quiet_tac. Qed.

Lemma setLimit_served content q w :
  served (final (setLimit content q w)) = served w.
Proof. revert w. change (quiet (setLimit content q)). unfold setLimit. quiet_tac. Qed.

Lemma setSkip_served content q w :
  served (final (setSkip content q w)) = served w.
Proof. revert w. change (quiet (setSkip content q)). unfold setSkip. quiet_tac. Qed.

(** A sub-executor that returns has sent exactly one request. *)
Lemma execQuery_serves_one content text coll w e w1 :
  execQuery content text coll w = Ret e w1 -> served w1 = S (served w).
Proof.
  unfold execQuery. unfold mbind at 1, M_bind at 1.
  pose proof (findQuery_served content text w) as H1.
  destruct (findQuery content text w) as [q1 wa|]; [|discriminate].
  unfold mbind at 1, M_bind at 1.
  pose proof (setLimit_served content q1 wa) as H2.
  destruct (setLimit content q1 wa) as [q2 wb|]; [|discriminate].
  unfold mbind at 1, M_bind at 1.
  pose proof (setSkip_served content q2 wb) as H3.
  destruct (setSkip content q2 wb) as [q3 wc|]; [|discriminate].
  cbn in *. intros [= _ <-]. cbn. congruence.
Qed.

Lemma block_serves_one op w e w1 :
  block op w = Ret e w1 -> served w1 = S (served w).
Proof.
  unfold block. rewrite subExecutes_lookup.
  repeat case_decide; try discriminate;
    try (now apply execQuery_serves_one);
    try (unfold execInsert, execUpdate, execRemove, execCount; cbn;
         now intros [= _ <-]).
  unfold execFindAndModify. case_match; try discriminate. cbn. now intros [= _ <-].
Qed.

(** The retried call that returns has made one attempt or two. *)
Lemma retry_serves op w e wr :
  retryOnSocketFailure Refresh logError (block op) w = Ret e wr ->
  served wr = S (served w) \/ served wr = S (S (served w)).
Proof.
  destruct (block op w) as [[e1|] w1|w1] eqn:Hb.
  - destruct (no_retry e1) eqn:Hn.
    + rewrite (RetryFacts.retry_final_error _ _ _ w w1 e1) by assumption.
      intros [= _ <-]. left. now apply (block_serves_one op w (Some e1)).
    + rewrite (RetryFacts.retry_again _ _ _ w w1 e1) by assumption.
      intros H2%block_serves_one. right. rewrite H2. cbn. f_equal.
      now apply (block_serves_one op w (Some e1)).
  - rewrite (RetryFacts.retry_success _ _ _ w w1) by assumption.
    intros [= _ <-]. left. now apply (block_serves_one op w None).
  - now rewrite (RetryFacts.retry_panic _ _ _ w w1) by assumption.
Qed.

End ExecuteFacts.

Definition ok_reply : Reply := {| r_err := None; r_docs := []; r_elapsed := 5 |}.

(** A session whose first request fails with a socket error; every later
    one succeeds. *)
Definition flaky (n : nat) : Reply :=
  match n with
  | O => {| r_err := Some (OtherError "EOF"); r_docs := []; r_elapsed := 7 |}
  | _ => ok_reply
  end.

Definition world0 (d : nat -> Reply) : World :=
  {| clock := 100; driver := d; served := 0; trace := [];
     statsChan := Some []; lastResult := None; lastLatency := 0 |}.

Definition op_insert : Op :=
  {| Database := "app"; Collection := "users"; Type_ := Insert; Timestamp := 0;
     Content := {[ "o" := VMap ∅ ]}; TextContent := "" |}.

(** A findandmodify command that removes: it has no [update]. *)
Definition op_fam_remove : Op :=
  {| Database := "app"; Collection := "users"; Type_ := FindAndModify; Timestamp := 0;
     Content := {[ "findandmodify" := VString "users"; "query" := VMap ∅;
                   "remove" := VBool true ]};
     TextContent := "" |}.

(** C9: the keys of [subExecutes] are the six supported types; for an op of
    any other type the map gives nil, calling it panics before anything is
    done, and so [Execute] never returns [NotSupported] (nor anything else)
    for it. *)
Theorem Execute_unsupported_type_panics :
  (forall t, is_Some (subExecutes !! t) <-> t ∈ AllOpTypes)
  /\ (forall op w, Type_ op ∉ AllOpTypes ->
      subExecutes !! Type_ op = None
      /\ Execute op w = Panic w
      /\ forall w', Execute op w <> Ret (Some NotSupported) w').
Proof.
  split.
  - intros t. pose proof (ExecutorFacts.subExecutes_None t) as H.
    destruct (subExecutes !! t) eqn:Ht.
    + split; [intros _|eauto].
      destruct (decide (t ∈ AllOpTypes)); [assumption|].
      apply H in n. discriminate.
    + split; [intros [? [=]]|]. intros Hin. destruct H as [H _].
      now destruct (H eq_refl).
  - intros op w Hn. apply ExecutorFacts.subExecutes_None in Hn as Hl.
    assert (Execute op w = Panic w) as HE.
    { rewrite ExecuteFacts.Execute_run.
      rewrite (RetryFacts.retry_panic _ _ _ w w); [reflexivity|].
      unfold block. now rewrite Hl. }
    repeat split; [assumption..|]. intros w'. rewrite HE. discriminate.
Qed.

Lemma Execute_unsupported_type_panics_witness :
  Execute (set_Type Command op_insert) (world0 flaky)
  = Panic (world0 flaky).
Proof.
  refine (proj1 (proj2 (proj2 Execute_unsupported_type_panics
                          (set_Type Command op_insert) (world0 flaky) _))).
  unfold AllOpTypes. cbn. set_solver.
Defined.

(** C3 as stated fails: [Execute] on a findandmodify command without an
    update document (a removal) panics in its sub-executor, and on an op of
    an unsupported type it panics at the call of the nil function; in both
    cases a channel is attached and nothing is sent on it. *)
Lemma Execute_no_OpStat_counterexample :
  statsChan (world0 flaky) = Some []
  /\ Execute op_fam_remove (world0 flaky) = Panic (world0 flaky)
  /\ Execute (set_Type Command op_insert) (world0 flaky) = Panic (world0 flaky)
  /\ statsChan (final (Execute op_fam_remove (world0 flaky))) = Some [].
Proof. repeat split; vm_compute; reflexivity. Qed.

(** C3 (amended): for every call to [Execute] that returns, with a
    statistics channel attached, exactly one OpStat of the op type, the
    latency and the error flag is sent on that channel; the flag is true
    exactly when the result of the retried call, which [Execute] returns, is
    an error; the latency is the clock just after the last attempt minus the
    clock just before the first, which is the time of the one or two
    requests made; it is stored as the last latency, which [LastLatency]
    returns.  [Execute] returns exactly when the retried call does. *)
Theorem Execute_sends_one_OpStat (op : Op) (w : World) (q : list OpStat) :
  statsChan w = Some q ->
  returns (Execute op w)
  = returns (retryOnSocketFailure Refresh logError (block op) w)
  /\ forall err w', Execute op w = Ret err w' ->
     exists wr,
       retryOnSocketFailure Refresh logError (block op) w = Ret err wr
       /\ statsChan w'
          = Some (q ++ [{| OpType_ := Type_ op; Latency := clock wr - clock w;
                           OpError := if err is Some _ then true else false |}])
       /\ lastLatency w' = clock wr - clock w
       /\ LastLatency w' = Ret (clock wr - clock w) w'
       /\ (served wr = S (served w) \/ served wr = S (S (served w)))
       /\ clock wr - clock w
          = elapsed (driver w) (served w) (served wr - served w)
       /\ trace w' = trace wr /\ served w' = served wr.
Proof.
  intros Hq. rewrite ExecuteFacts.Execute_run.
  pose proof (ExecutorFacts.framed_retry op w) as [Hc _ _ _ Hk].
  destruct (retryOnSocketFailure Refresh logError (block op) w) as [e wr|wr] eqn:Hr;
    [|split; [reflexivity|discriminate]].
  split; [reflexivity|]. cbn [final] in *. rewrite Hc, Hq.
  intros err w' [= <- <-]. exists wr.
  repeat split; try reflexivity.
  - now apply (ExecuteFacts.retry_serves op w e).
  - lia.
Qed.

Lemma Execute_sends_one_OpStat_witness :
  exists wr,
    retryOnSocketFailure Refresh logError (block op_insert) (world0 flaky) = Ret None wr
    /\ statsChan (final (Execute op_insert (world0 flaky)))
       = Some ([] ++ [{| OpType_ := Insert; Latency := clock wr - 100; OpError := false |}])
    /\ lastLatency (final (Execute op_insert (world0 flaky))) = clock wr - 100
    /\ LastLatency (final (Execute op_insert (world0 flaky)))
       = Ret (clock wr - 100) (final (Execute op_insert (world0 flaky)))
    /\ (served wr = 1%nat \/ served wr = 2%nat)
    /\ clock wr - 100 = elapsed flaky 0 (served wr - 0)
    /\ trace (final (Execute op_insert (world0 flaky))) = trace wr
    /\ served (final (Execute op_insert (world0 flaky))) = served wr.
Proof.
  exact (proj2 (Execute_sends_one_OpStat op_insert (world0 flaky) [] eq_refl)
           None (final (Execute op_insert (world0 flaky))) eq_refl).
Defined.

(** ** Argument extraction *)

(** A text in which the quoted key $orderby first occurs as a string value,
    before the entry of that name with the mapping of a to 1. *)
Definition text_key_twice : string :=
  ("{" +:+ quoted "q" +:+ ": " +:+ quoted "$orderby" +:+ ", ")
  +:+ quoted "$orderby" +:+ ": "
  +:+ mapping_text [{| e_gap := ""; e_name := "a"; e_mid := ": "; e_neg := false |}] ""
  +:+ "}".

(** The mapping of the one key made of a, a double quote and b to 1, as JSON
    writes it: the double quote in the key is escaped with a backslash. *)
Definition text_escaped_key : string :=
  quoted "$orderby" +:+ ": {" +:+ quoted ("a\" +:+ dq +:+ "b") +:+ ": 1}".

(** C4 as stated fails: in [text_key_twice] the quoted key is followed by a
    brace-enclosed mapping with the one key a, and [getArgs] returns the
    list of $orderby; in [text_escaped_key] the key of the mapping has a
    double quote in it, and [getArgs] returns the part before it. *)
Lemma getArgs_counterexample :
  getArgs text_key_twice "$orderby" = Some ["$orderby"]
  /\ getArgs text_key_twice "$orderby" <> Some ["a"]
  /\ getArgs text_escaped_key "$orderby" = Some ["a\"]
  /\ getArgs text_escaped_key "$orderby" <> Some ["a" +:+ dq +:+ "b"].
Proof. repeat split; vm_compute; (reflexivity || discriminate). Qed.

(** C4 (amended): for every text in which the first occurrence of the quoted
    key is followed by a brace-enclosed mapping of key names to directions,
    the key names without a double quote and the directions written 1 or -1,
    [getArgs] returns the keys of the mapping in the order of the text, each
    with a minus sign in front exactly when its direction is negative; for
    the text of the example it returns a, -b, c in that order. *)
Theorem getArgs_mapping :
  (forall pre key sep es g post,
      Index (pre +:+ quoted key +:+ sep +:+ mapping_text es g +:+ post) (quoted key)
      = len pre ->
      gap_ok sep = true -> forallb entry_ok es = true -> gap_ok g = true ->
      getArgs (pre +:+ quoted key +:+ sep +:+ mapping_text es g +:+ post) key
      = Some (map entry_arg es))
  /\ getArgs orderby_example "$orderby" = Some ["a"; "-b"; "c"].
Proof.
  split; [|vm_compute; reflexivity].
  intros pre key sep es g post HI Hsep Hes Hg.
  unfold getArgs. rewrite HI.
  replace (len pre + len key + 2) with (len (pre +:+ quoted key)).
  2:{ rewrite <- Z.add_assoc, <- ScanFacts.len_quoted. unfold len.
      rewrite length_append. lia. }
  rewrite <- (append_assoc pre (quoted key)).
  rewrite slice_from_append.
  now apply ScanFacts.scan_mapping.
Qed.

(** The example of the specification as an instance of the general case. *)
Lemma getArgs_mapping_witness :
  getArgs orderby_example "$orderby"
  = Some (map entry_arg
            [{| e_gap := " "; e_name := "a"; e_mid := ": "; e_neg := false |};
             {| e_gap := ", "; e_name := "b"; e_mid := ": "; e_neg := true |};
             {| e_gap := ", "; e_name := "c"; e_mid := ": "; e_neg := false |}]).
Proof.
  exact (proj1 getArgs_mapping "" "$orderby" ": "
           [{| e_gap := " "; e_name := "a"; e_mid := ": "; e_neg := false |};
            {| e_gap := ", "; e_name := "b"; e_mid := ": "; e_neg := true |};
            {| e_gap := ", "; e_name := "c"; e_mid := ": "; e_neg := false |}]
           " " "" eq_refl eq_refl eq_refl eq_refl).
Defined.

(** ** When argument extraction fails *)

Module IndexFacts.

Lemma prefix_length sub s :
  String.prefix sub s = true -> (String.length sub <= String.length s)%nat.
Proof.
  revert s. induction sub as [|a sub IH]; intros s H; [cbn; lia|].
  destruct s as [|b s]; [discriminate|]. cbn in H.
  destruct (ascii_dec a b); [|discriminate].
  specialize (IH s H). cbn. lia.
Qed.

(** [strings.Index] gives -1 or the start of an occurrence that lies within
    the string. *)
Lemma Index_from_range i s sub :
  Index_from i s sub = -1
  \/ (i <= Index_from i s sub /\ Index_from i s sub + len sub <= i + len s).
Proof.
  revert i. induction s as [|a s IH]; intros i; cbn [Index_from].
  - destruct (String.prefix sub EmptyString) eqn:Hp; [|now left].
    right. apply prefix_length in Hp. unfold len. cbn in *. lia.
  - destruct (String.prefix sub (String a s)) eqn:Hp.
    + right. apply prefix_length in Hp. unfold len. lia.
    + destruct (IH (i + 1)) as [->|[H1 H2]]; [now left|right].
      unfold len in *. cbn [String.length]. lia.
Qed.

Lemma Index_range s sub :
  Index s sub = -1 \/ (0 <= Index s sub /\ Index s sub + len sub <= len s).
Proof. apply (Index_from_range 0). Qed.

End IndexFacts.

(** X1: [getArgs] panics exactly when the quoted key does not occur in the
    text and the text has fewer than [len(key)+1] bytes, the offset it then
    slices at; the indexing of [args] in its loop never fails. *)
Theorem getArgs_panics_iff (textContent key : string) :
  getArgs textContent key = None
  <-> Index textContent (quoted key) = -1 /\ len textContent < len key + 1.
Proof.
  unfold getArgs, slice_from.
  pose proof (IndexFacts.Index_range textContent (quoted key)) as HI.
  rewrite ScanFacts.len_quoted in HI.
  assert (0 <= len key) as Hk by (unfold len; lia).
  destruct (Z.leb_spec 0 (Index textContent (quoted key) + len key + 2));
    destruct (Z.leb_spec (Index textContent (quoted key) + len key + 2) (len textContent));
    cbn [andb].
  - destruct (ScanFacts.scan_total
                (runes (drop (Z.to_nat (Index textContent (quoted key) + len key + 2))
                          textContent)) 0 EmptyString []) as [args ->];
      [discriminate|].
    split; [discriminate|]. intros [? ?]. lia.
  - split; [intros _|reflexivity]. lia.
  - lia.
  - lia.
Qed.

(** ** What [execQuery] sends *)

Module QueryFacts.

Ltac run :=
  unfold request; unfold mbind, M_bind, mret, M_ret, modify, panic, gets, lift.

(** The first block does not touch the state: it gives the query built, or
    panics where [getArgs] does. *)
Lemma findQuery_outcome content text w :
  match envelope content with
  | None => findQuery content text w = Ret (Find (index content "query")) w
  | Some q =>
    match (if is_nil (index q "$hint") then Some None
           else Some <$> getArgs text "$hint"),
          (if is_nil (index q "$orderby") then Some None
           else Some <$> getArgs text "$orderby") with
    | Some h, Some s =>
      findQuery content text w
      = Ret {| q_selector := index q "$query"; q_hint := h; q_sort := s;
               q_limit := None; q_skip := None |} w
    | _, _ => findQuery content text w = Panic w
    end
  end.
Proof.
  unfold envelope, findQuery.
  destruct (index content "query") as [| | | | | | | | |q]; try reflexivity.
  destruct (is_nil (index q "$query")); cbn [negb]; [reflexivity|].
  run.
  destruct (is_nil (index q "$hint")); cbn [negb];
    [|destruct (getArgs text "$hint"); cbn [fmap option_fmap option_map]];
    (destruct (is_nil (index q "$orderby")); cbn [negb];
     [|destruct (getArgs text "$orderby"); cbn [fmap option_fmap option_map]]);
    reflexivity.
Qed.

Lemma setLimit_outcome content query w :
  setLimit content query w =
    let v := index content "ntoreturn" in
    if is_nil v then Ret query w
    else if numeric v then Ret (Limit (fst (safeGetInt v)) query) w
    else Ret query (logError "could not set ntoreturn: "
                      (Errorf "unsupported type for %i" v) w).
Proof.
  unfold setLimit. cbn zeta. destruct (index content "ntoreturn"); reflexivity.
Qed.

Lemma setSkip_outcome content query w :
  setSkip content query w =
    let v := index content "ntoskip" in
    if is_nil v then Ret query w
    else if numeric v then Ret (Skip (fst (safeGetInt v)) query) w
    else Ret query (logError "could not set ntoskip: "
                      (Errorf "unsupported type for %i" v) w).
Proof.
  unfold setSkip. cbn zeta. destruct (index content "ntoskip"); reflexivity.
Qed.

(** [execQuery] from the query of its first block on. *)
Lemma execQuery_after_find content text coll w q0 :
  findQuery content text w = Ret q0 w ->
  exists query w1,
    execQuery content text coll w
    = Ret (r_err (driver w (served w)))
        (set_lastResult (Some (r_docs (driver w (served w))))
           (serve (emit (EvRequest (ReqAll coll query)) w1)))
    /\ trace w1 = trace w
                  ++ rejected "could not set ntoreturn: " (index content "ntoreturn")
                  ++ rejected "could not set ntoskip: " (index content "ntoskip")
    /\ served w1 = served w /\ driver w1 = driver w
    /\ q_selector query = q_selector q0 /\ q_hint query = q_hint q0
    /\ q_sort query = q_sort q0
    /\ (q_limit q0 = None -> q_limit query = accepted (index content "ntoreturn"))
    /\ (q_skip q0 = None -> q_skip query = accepted (index content "ntoskip")).
Proof.
  intros Hf. unfold execQuery. unfold mbind at 1, M_bind at 1. rewrite Hf.
  unfold mbind at 1, M_bind at 1. rewrite setLimit_outcome. cbn zeta.
  unfold rejected, accepted.
  destruct (is_nil (index content "ntoreturn")) eqn:N1; cbn [orb];
    [|destruct (numeric (index content "ntoreturn")) eqn:M1];
    (unfold mbind at 1, M_bind at 1; rewrite setSkip_outcome; cbn zeta;
     destruct (is_nil (index content "ntoskip")) eqn:N2; cbn [orb];
     [|destruct (numeric (index content "ntoskip")) eqn:M2]);
    (eexists _, _; split; [reflexivity|]);
    cbn; rewrite ?app_nil_r, <- ?app_assoc; repeat split; try reflexivity;
    intros ->;
    first [ reflexivity
          | destruct (index content "ntoreturn"); first [discriminate|reflexivity]
          | destruct (index content "ntoskip"); first [discriminate|reflexivity] ].
Qed.

(** The two ways the first block ends. *)
Lemma findQuery_cases content text w :
  (findQuery content text w = Panic w
   /\ exists q, envelope content = Some q
        /\ ((is_nil (index q "$hint") = false /\ getArgs text "$hint" = None)
            \/ (is_nil (index q "$orderby") = false
                /\ getArgs text "$orderby" = None)))
  \/ (exists q0,
        findQuery content text w = Ret q0 w
        /\ q_limit q0 = None /\ q_skip q0 = None
        /\ q_selector q0 = match envelope content with
                           | Some q => index q "$query"
                           | None => index content "query"
                           end
        /\ match envelope content with
           | None => q_hint q0 = None /\ q_sort q0 = None
           | Some q =>
             (if is_nil (index q "$hint") then q_hint q0 = None
              else exists args, getArgs text "$hint" = Some args
                                /\ q_hint q0 = Some args)
             /\ (if is_nil (index q "$orderby") then q_sort q0 = None
                 else exists args, getArgs text "$orderby" = Some args
                                   /\ q_sort q0 = Some args)
           end).
Proof.
  pose proof (findQuery_outcome content text w) as H.
  destruct (envelope content) as [q|]; [|right; eauto 10].
  destruct (is_nil (index q "$hint")) eqn:Nh;
    [|destruct (getArgs text "$hint") as [h|] eqn:Gh; cbn in H];
    (destruct (is_nil (index q "$orderby")) eqn:No;
     [|destruct (getArgs text "$orderby") as [s|] eqn:Go; cbn in H]);
    try (right; eexists; split; [exact H|]; cbn; rewrite ?Nh, ?No;
         repeat split; eauto);
    left; (split; [exact H|]); exists q; split; eauto.
Qed.

(** Everything about an [execQuery] that returns. *)
Lemma execQuery_returns content text coll w err w' :
  execQuery content text coll w = Ret err w' ->
  exists query,
    trace w' = trace w
               ++ rejected "could not set ntoreturn: " (index content "ntoreturn")
               ++ rejected "could not set ntoskip: " (index content "ntoskip")
               ++ [EvRequest (ReqAll coll query)]
    /\ served w' = S (served w)
    /\ err = r_err (driver w (served w))
    /\ lastResult w' = Some (r_docs (driver w (served w)))
    /\ q_limit query = accepted (index content "ntoreturn")
    /\ q_skip query = accepted (index content "ntoskip")
    /\ q_selector query = match envelope content with
                          | Some q => index q "$query"
                          | None => index content "query"
                          end
    /\ match envelope content with
       | None => q_hint query = None /\ q_sort query = None
       | Some q =>
         (if is_nil (index q "$hint") then q_hint query = None
          else exists args, getArgs text "$hint" = Some args
                            /\ q_hint query = Some args)
         /\ (if is_nil (index q "$orderby") then q_sort query = None
             else exists args, getArgs text "$orderby" = Some args
                               /\ q_sort query = Some args)
       end.
Proof.
  intros HE.
  destruct (findQuery_cases content text w) as [[Hp _]|(q0 & Hf & L0 & S0 & Hsel & Hhs)].
  { unfold execQuery in HE. unfold mbind at 1, M_bind at 1 in HE.
    rewrite Hp in HE. discriminate. }
  destruct (execQuery_after_find content text coll w q0 Hf)
    as (query & w1 & HR & Ht & Hs & Hd & Q1 & Q2 & Q3 & Q4 & Q5).
  rewrite HR in HE. injection HE as <- <-. exists query.
  cbn. rewrite Ht, Hs, <- !app_assoc, Q1, Q2, Q3, Q4, Q5 by assumption.
  repeat split; assumption.
Qed.

End QueryFacts.

(** A query in an envelope with a sort, a limit of Go's native int type and
    a skip of 32 bits, and its text. *)
Definition content_sorted : Document :=
  {[ "query" := VMap {[ "$query" := VMap {[ "age" := VInt32 30 ]};
                        "$orderby" := VMap {[ "a" := VInt32 1; "b" := VInt32 (-1);
                                              "c" := VInt32 1 ]} ]};
     "ntoreturn" := VInt 10;
     "ntoskip" := VInt32 5 ]}.

Definition coll_users : Coll := {| coll_db := "app"; coll_name := "users" |}.

(** X2: an [execQuery] that returns has sent exactly one request, after its
    log lines: a find on the collection it was given, whose selector is the
    inner [$query] when [content.query] is a mapping with one that is not
    nil, and [content.query] as it is otherwise; it returns the error of the
    reply and keeps the documents of the reply as the last result. *)
Theorem execQuery_sends_one_find content text coll w err w' :
  execQuery content text coll w = Ret err w' ->
  exists query logs,
    trace w' = trace w ++ logs ++ [EvRequest (ReqAll coll query)]
    /\ requests logs = []
    /\ served w' = S (served w)
    /\ err = r_err (driver w (served w))
    /\ lastResult w' = Some (r_docs (driver w (served w)))
    /\ q_selector query = match envelope content with
                          | Some q => index q "$query"
                          | None => index content "query"
                          end.
Proof.
  intros (query & Ht & Hs & He & Hl & _ & _ & Hsel & _)%QueryFacts.execQuery_returns.
  exists query, (rejected "could not set ntoreturn: " (index content "ntoreturn")
                 ++ rejected "could not set ntoskip: " (index content "ntoskip")).
  rewrite <- app_assoc. repeat split; try assumption.
  unfold rejected.
  destruct (is_nil (index content "ntoreturn") || numeric (index content "ntoreturn"));
    destruct (is_nil (index content "ntoskip") || numeric (index content "ntoskip"));
    reflexivity.
Qed.

Lemma execQuery_sends_one_find_witness :
  exists query logs,
    trace (final (execQuery content_sorted orderby_example coll_users (world0 flaky)))
    = [] ++ logs ++ [EvRequest (ReqAll coll_users query)]
    /\ requests logs = []
    /\ served (final (execQuery content_sorted orderby_example coll_users (world0 flaky)))
       = 1%nat
    /\ Some (OtherError "EOF") = r_err (flaky 0)
    /\ lastResult (final (execQuery content_sorted orderby_example coll_users (world0 flaky)))
       = Some (r_docs (flaky 0))
    /\ q_selector query = VMap {[ "age" := VInt32 30 ]}.
Proof.
  exact (execQuery_sends_one_find content_sorted orderby_example coll_users
           (world0 flaky) (Some (OtherError "EOF"))
           (final (execQuery content_sorted orderby_example coll_users (world0 flaky)))
           eq_refl).
Defined.

(** X3: the hint and the sort of the find are set only for a query in an
    envelope: for a [$hint] (an [$orderby]) that is not nil they are the list
    [getArgs] extracts from the text for that key; a query that is not in an
    envelope is sent with neither, whatever keys it has. *)
Theorem execQuery_hint_and_sort content text coll w err w' :
  execQuery content text coll w = Ret err w' ->
  exists query,
    last (trace w') = Some (EvRequest (ReqAll coll query))
    /\ match envelope content with
       | None => q_hint query = None /\ q_sort query = None
       | Some q =>
         (if is_nil (index q "$hint") then q_hint query = None
          else exists args, getArgs text "$hint" = Some args
                            /\ q_hint query = Some args)
         /\ (if is_nil (index q "$orderby") then q_sort query = None
             else exists args, getArgs text "$orderby" = Some args
                               /\ q_sort query = Some args)
       end.
Proof.
  intros (query & Ht & _ & _ & _ & _ & _ & _ & Hhs)%QueryFacts.execQuery_returns.
  exists query. split; [|assumption].
  rewrite Ht, !app_assoc. apply last_snoc.
Qed.

Lemma execQuery_hint_and_sort_witness :
  exists query,
    last (trace (final (execQuery content_sorted orderby_example coll_users (world0 flaky))))
    = Some (EvRequest (ReqAll coll_users query))
    /\ q_hint query = None
    /\ exists args, getArgs orderby_example "$orderby" = Some args
                    /\ q_sort query = Some args.
Proof.
  exact (execQuery_hint_and_sort content_sorted orderby_example coll_users
           (world0 flaky) (Some (OtherError "EOF"))
           (final (execQuery content_sorted orderby_example coll_users (world0 flaky)))
           eq_refl).
Defined.

(** X4: the limit (the skip) of the find is set exactly when [ntoreturn]
    ([ntoskip]) has one of the four dynamic types [safeGetInt] converts:
    int32, int64, float32, float64.  A value of any other type that is not
    nil, Go's native int and strings included, is not applied: one error
    line is logged for it and the find is sent without that limit or skip;
    the result of the op is still the answer of the database. *)
Theorem execQuery_limit_and_skip content text coll w err w' :
  execQuery content text coll w = Ret err w' ->
  exists query,
    trace w' = trace w
               ++ rejected "could not set ntoreturn: " (index content "ntoreturn")
               ++ rejected "could not set ntoskip: " (index content "ntoskip")
               ++ [EvRequest (ReqAll coll query)]
    /\ q_limit query = match index content "ntoreturn" with
                       | VInt32 n | VInt64 n => Some n
                       | VFloat32 f | VFloat64 f => Some (float_to_int f)
                       | _ => None
                       end
    /\ q_skip query = match index content "ntoskip" with
                      | VInt32 n | VInt64 n => Some n
                      | VFloat32 f | VFloat64 f => Some (float_to_int f)
                      | _ => None
                      end
    /\ err = r_err (driver w (served w)).
Proof.
  intros (query & Ht & _ & He & _ & Hl & Hk & _)%QueryFacts.execQuery_returns.
  exists query. repeat split; try assumption.
  - rewrite Hl. unfold accepted. destruct (index content "ntoreturn"); reflexivity.
  - rewrite Hk. unfold accepted. destruct (index content "ntoskip"); reflexivity.
Qed.

Lemma execQuery_limit_and_skip_witness :
  exists query,
    trace (final (execQuery content_sorted orderby_example coll_users (world0 flaky)))
    = [] ++ [EvLogError "could not set ntoreturn: "
               (Errorf "unsupported type for %i" (VInt 10))]
         ++ [] ++ [EvRequest (ReqAll coll_users query)]
    /\ q_limit query = None
    /\ q_skip query = Some 5
    /\ Some (OtherError "EOF") = r_err (flaky 0).
Proof.
  exact (execQuery_limit_and_skip content_sorted orderby_example coll_users
           (world0 flaky) (Some (OtherError "EOF"))
           (final (execQuery content_sorted orderby_example coll_users (world0 flaky)))
           eq_refl).
Defined.


(** ** What a call of [Execute] does, whatever the session *)

Module BlockFacts.

Lemma trace_emits evs w : trace (emits evs w) = trace w ++ evs.
Proof.
  revert w. induction evs as [|ev evs IH]; intros w; cbn.
  - now rewrite app_nil_r.
  - unfold emits in IH. rewrite IH. cbn. now rewrite <- app_assoc.
Qed.

Lemma served_emits evs w : served (emits evs w) = served w.
Proof.
  revert w. induction evs as [|ev evs IH]; intros w; cbn; [reflexivity|].
  unfold emits in IH. now rewrite IH.
Qed.

Lemma driver_emits evs w : driver (emits evs w) = driver w.
Proof.
  revert w. induction evs as [|ev evs IH]; intros w; cbn; [reflexivity|].
  unfold emits in IH. now rewrite IH.
Qed.

Lemma requests_app a b : requests (a ++ b) = requests a ++ requests b.
Proof. unfold requests. apply omap_app. Qed.

Lemma refresh_count_app a b :
  refresh_count (a ++ b) = (refresh_count a + refresh_count b)%nat.
Proof. unfold refresh_count. now rewrite List.filter_app, length_app. Qed.

Lemma rejected_quiet msg v :
  requests (rejected msg v) = [] /\ refresh_count (rejected msg v) = 0%nat.
Proof. unfold rejected. destruct (is_nil v || numeric v); split; reflexivity. Qed.

(** What a sub-executor that does not panic does, on every state alike: it
    writes the same log lines, sends the same request and returns the error
    of the reply. *)
Definition sends (m : M World (option error)) (logs : list Event) (r : Request)
  : Prop :=
  forall w, exists w',
    m w = Ret (r_err (driver w (served w))) w'
    /\ trace w' = trace w ++ logs ++ [EvRequest r]
    /\ served w' = S (served w) /\ driver w' = driver w.

Lemma sends_request r : sends (reply ← request r; mret (r_err reply)) [] r.
Proof. intros w. eexists. split; [reflexivity|]. cbn. auto. Qed.

Lemma execQuery_uniform content text coll :
  (forall w, execQuery content text coll w = Panic w)
  \/ exists query,
       sends (execQuery content text coll)
         (rejected "could not set ntoreturn: " (index content "ntoreturn")
          ++ rejected "could not set ntoskip: " (index content "ntoskip"))
         (ReqAll coll query).
Proof.
  assert ((forall w, findQuery content text w = Panic w)
          \/ exists q0, forall w, findQuery content text w = Ret q0 w) as [Hp|[q0 Hf]].
  { pose proof (QueryFacts.findQuery_outcome content text) as H.
    destruct (envelope content) as [q|]; [|eauto].
    destruct (if is_nil (index q "$hint") then _ else _);
      [destruct (if is_nil (index q "$orderby") then _ else _)|]; eauto. }
  - left. intros w. unfold execQuery. unfold mbind at 1, M_bind at 1.
    now rewrite Hp.
  - right.
    exists (let v := index content "ntoskip" in
            let q1 := let u := index content "ntoreturn" in
                      if is_nil u then q0
                      else if numeric u then Limit (fst (safeGetInt u)) q0 else q0 in
            if is_nil v then q1
            else if numeric v then Skip (fst (safeGetInt v)) q1 else q1).
    intros w. unfold execQuery. unfold mbind at 1, M_bind at 1. rewrite Hf.
    unfold mbind at 1, M_bind at 1. rewrite QueryFacts.setLimit_outcome.
    cbn zeta. unfold rejected.
    destruct (is_nil (index content "ntoreturn")); cbn [orb];
      [|destruct (numeric (index content "ntoreturn"))];
      (unfold mbind at 1, M_bind at 1; rewrite QueryFacts.setSkip_outcome; cbn zeta;
       destruct (is_nil (index content "ntoskip")); cbn [orb];
       [|destruct (numeric (index content "ntoskip"))]);
      (eexists; split; [reflexivity|]); cbn; rewrite <- ?app_assoc; auto.
Qed.

(** The closure of [Execute] either panics at once on every state, or on
    every state sends one and the same request. *)
Lemma block_uniform op :
  ((forall w, block op w = Panic w)
   /\ (Type_ op ∉ AllOpTypes
       \/ (Type_ op = FindAndModify
           /\ forall u, index (Content op) "update" <> VMap u)
       \/ (Type_ op = Query
           /\ forall w, execQuery (Content op) (TextContent op)
                          {| coll_db := Database op; coll_name := Collection op |} w
                        = Panic w)))
  \/ (exists logs r,
        requests logs = [] /\ refresh_count logs = 0%nat
        /\ sends (block op) logs r /\ Type_ op ∈ AllOpTypes).
Proof.
  unfold block. rewrite ExecutorFacts.subExecutes_lookup.
  repeat case_decide.
  - destruct (execQuery_uniform (Content op) (TextContent op)
                {| coll_db := Database op; coll_name := Collection op |})
      as [Hp|[query Hs]].
    + left. split; [assumption|]. right; right. auto.
    + right. eexists _, _. split; [|split; [|split; [exact Hs|]]].
      * rewrite requests_app.
        now rewrite (proj1 (rejected_quiet _ _)), (proj1 (rejected_quiet _ _)).
      * rewrite refresh_count_app.
        now rewrite (proj2 (rejected_quiet _ _)), (proj2 (rejected_quiet _ _)).
      * rewrite H. unfold AllOpTypes. set_solver.
  - right. eexists [], _. repeat split; [apply sends_request|].
    rewrite H0. unfold AllOpTypes. set_solver.
  - right. eexists [], _. repeat split; [apply sends_request|].
    rewrite H1. unfold AllOpTypes. set_solver.
  - right. eexists [], _. repeat split; [apply sends_request|].
    rewrite H2. unfold AllOpTypes. set_solver.
  - right. eexists [], _. repeat split; [apply sends_request|].
    rewrite H3. unfold AllOpTypes. set_solver.
  - unfold execFindAndModify.
    destruct (index (Content op) "update") as [| | | | | | | | |u] eqn:Hu;
      try (left; split; [reflexivity|]; right; left; split; [assumption|];
           intros ?; discriminate).
    right. eexists [], _. repeat split; [apply sends_request|].
    rewrite H4. unfold AllOpTypes. set_solver.
  - left. split; [reflexivity|]. left.
    unfold AllOpTypes. rewrite !not_elem_of_cons. repeat split; try assumption.
    apply not_elem_of_nil.
Qed.

Lemma block_FindAndModify op w :
  Type_ op = FindAndModify ->
  block op w = execFindAndModify (Content op) (TextContent op)
                 {| coll_db := Database op; coll_name := Collection op |} w.
Proof.
  intros Ht. unfold block. now rewrite ExecutorFacts.subExecutes_lookup, Ht.
Qed.

Lemma block_Query op w :
  Type_ op = Query ->
  block op w = execQuery (Content op) (TextContent op)
                 {| coll_db := Database op; coll_name := Collection op |} w.
Proof.
  intros Ht. unfold block. now rewrite ExecutorFacts.subExecutes_lookup, Ht.
Qed.

End BlockFacts.

(** X6: [Execute] panics exactly on an op of a type without sub-executor,
    on a findandmodify op whose [update] is not a mapping, and on a query op
    on which [execQuery] panics; and it panics at the first attempt, before
    any request, log line or sample: the state is the one it started from. *)
Theorem Execute_panics_iff (op : Op) (w w' : World) :
  Execute op w = Panic w'
  <-> w' = w
      /\ (Type_ op ∉ AllOpTypes
          \/ (Type_ op = FindAndModify
              /\ forall u, index (Content op) "update" <> VMap u)
          \/ (Type_ op = Query
              /\ forall v, execQuery (Content op) (TextContent op)
                             {| coll_db := Database op; coll_name := Collection op |} v
                           = Panic v)).
Proof.
  rewrite ExecuteFacts.Execute_run.
  destruct (BlockFacts.block_uniform op) as [[Hp Hc]|(logs & r & _ & _ & Hs & Hin)].
  - rewrite (RetryFacts.retry_panic _ _ _ w w) by apply Hp.
    split; [intros [= <-]; auto|intros [-> _]; reflexivity].
  - assert (exists e wr, retryOnSocketFailure Refresh logError (block op) w = Ret e wr)
      as (e & wr & ->).
    { destruct (Hs w) as (w1 & H1 & _).
      destruct (r_err (driver w (served w))) as [e1|].
      - destruct (no_retry e1) eqn:Hn.
        + rewrite (RetryFacts.retry_final_error _ _ _ w w1 e1) by assumption. eauto.
        + rewrite (RetryFacts.retry_again _ _ _ w w1 e1) by assumption.
          destruct (Hs (logError "retrying mongo query after error: " e1 (Refresh w1)))
            as (w2 & -> & _). eauto.
      - rewrite (RetryFacts.retry_success _ _ _ w w1) by assumption. eauto. }
    split; [discriminate|]. intros [_ [Hn|[[Ht Hu]|[Ht Hq]]]].
    + contradiction.
    + destruct (Hs w) as (w1 & H1 & _).
      rewrite BlockFacts.block_FindAndModify in H1 by assumption.
      unfold execFindAndModify in H1.
      destruct (index (Content op) "update") as [| | | | | | | | |u0] eqn:Hv;
        try discriminate.
      now destruct (Hu u0).
    + destruct (Hs w) as (w1 & H1 & _).
      rewrite BlockFacts.block_Query, Hq in H1 by assumption. discriminate.
Qed.



(** X8: with no statistics channel (a nil channel) an [Execute] that returns
    sends no sample and leaves the channel nil; it still records the
    latency, the clock at its end minus the clock at its start, as the last
    latency, and returns the result of the retried call. *)
Theorem Execute_nil_channel (op : Op) (w : World) err w' :
  statsChan w = None -> Execute op w = Ret err w' ->
  statsChan w' = None
  /\ lastLatency w' = clock w' - clock w
  /\ exists wr,
       retryOnSocketFailure Refresh logError (block op) w = Ret err wr
       /\ w' = set_lastLatency (clock wr - clock w) wr.
Proof.
  intros Hn. rewrite ExecuteFacts.Execute_run.
  pose proof (ExecutorFacts.framed_retry op w) as [Hc HL _ _ _].
  destruct (retryOnSocketFailure Refresh logError (block op) w) as [e wr|wr];
    [|discriminate].
  cbn [final] in *. rewrite Hc, Hn. intros [= <- <-].
  split; [cbn; congruence|]. split; [reflexivity|]. eauto.
Qed.

Lemma Execute_nil_channel_witness :
  statsChan (final (Execute op_insert (set_statsChan None (world0 flaky)))) = None
  /\ lastLatency (final (Execute op_insert (set_statsChan None (world0 flaky))))
     = clock (final (Execute op_insert (set_statsChan None (world0 flaky)))) - 100
  /\ exists wr,
       retryOnSocketFailure Refresh logError (block op_insert)
         (set_statsChan None (world0 flaky)) = Ret None wr
       /\ final (Execute op_insert (set_statsChan None (world0 flaky)))
          = set_lastLatency (clock wr - 100) wr.
Proof.
  exact (Execute_nil_channel op_insert (set_statsChan None (world0 flaky)) None
           (final (Execute op_insert (set_statsChan None (world0 flaky))))
           eq_refl eq_refl).
Defined.

(** ** More on the canonicalizer *)

Module CanonicalFacts.

Lemma canonical_tag_not_command t : "command." +:+ t <> Command.
Proof.
  intros H%(f_equal String.length). rewrite length_append in H. cbn in H. lia.
Qed.

(** The three ways a call on a record of the store ends. *)
Lemma CanonicalizeOp_cases (h : Heap) op o :
  h !! op = Some o ->
  (Type_ o <> Command /\ CanonicalizeOp op h = Ret (Some op) h)
  \/ (Type_ o = Command /\ CanonicalizeOp op h = Ret None h)
  \/ (Type_ o = Command
      /\ exists name c cmd,
           index (Content o) "command" = VMap cmd
           /\ name ∈ ["findandmodify"; "count"]
           /\ cmd !! name = Some (VString c)
           /\ CanonicalizeOp op h
              = Ret (Some op) (<[op := canonical ("command." +:+ name) c cmd o]> h))
  \/ (Type_ o = Command /\ exists h', CanonicalizeOp op h = Panic h').
Proof.
  intros Ho.
  destruct (String.eqb_spec (Type_ o) Command) as [Ht|Ht];
    [|left; split; [assumption|now apply (Canonicalizer.CanonicalizeOp_other h op o)]].
  right.
  destruct (index (Content o) "command") as [| | | | | | | | |cmd] eqn:Hc;
    try (right; right; split; [assumption|]; exists h;
         apply (Canonicalizer.CanonicalizeOp_no_mapping h op o); congruence).
  rewrite (Canonicalizer.CanonicalizeOp_command h op o cmd) by assumption.
  destruct (Canonicalizer.canonicalize_loop_frame h op o cmd ["findandmodify"; "count"] Ho)
    as [[-> _]|[(n & c & -> & Hin & Hn)|(n & -> & _)]].
  - left. auto.
  - right; left. split; [assumption|]. exists n, c, cmd. auto.
  - right; right. eauto.
Qed.

(** A value is a string or it is not. *)
Lemma classic_string v : (exists c, v = VString c) \/ (forall c, v <> VString c).
Proof. destruct v; try (right; discriminate). left. eauto. Qed.

End CanonicalFacts.

(** X9: canonicalizing twice is canonicalizing once: on the Op it has
    returned, [CanonicalizeOp] returns that Op again and changes nothing. *)
Theorem CanonicalizeOp_idempotent (h : Heap) (op : ptr) (o : Op) p h' :
  h !! op = Some o ->
  CanonicalizeOp op h = Ret (Some p) h' ->
  CanonicalizeOp p h' = Ret (Some p) h'.
Proof.
  intros Ho HC.
  destruct (CanonicalFacts.CanonicalizeOp_cases h op o Ho)
    as [[Ht H1]|[[Ht H1]|[[Ht (n & c & cmd & _ & _ & _ & H1)]|[Ht [h1 H1]]]]];
    rewrite H1 in HC; try discriminate; injection HC as <- <-.
  - assumption.
  - apply (Canonicalizer.CanonicalizeOp_other _ op (canonical ("command." +:+ n) c cmd o)).
    + apply lookup_insert_eq.
    + apply CanonicalFacts.canonical_tag_not_command.
Qed.

Lemma CanonicalizeOp_idempotent_witness :
  CanonicalizeOp 1%nat (final (CanonicalizeOp 1%nat {[ 1%nat := op_count ]}))
  = Ret (Some 1%nat) (final (CanonicalizeOp 1%nat {[ 1%nat := op_count ]})).
Proof.
  exact (CanonicalizeOp_idempotent {[ 1%nat := op_count ]} 1%nat op_count 1%nat
           (final (CanonicalizeOp 1%nat {[ 1%nat := op_count ]})) eq_refl eq_refl).
Defined.

(** X10: on a command whose [content.command] is a mapping,
    [CanonicalizeOp] panics exactly when the first of the keys findandmodify
    and count that the mapping has comes with a value that is no string; it
    has then already overwritten the type of the caller's record, and
    nothing else. *)
Theorem CanonicalizeOp_panics_after_type (h : Heap) (op : ptr) (o : Op) cmd h' :
  h !! op = Some o -> Type_ o = Command ->
  index (Content o) "command" = VMap cmd ->
  CanonicalizeOp op h = Panic h'
  <-> exists name v,
        ((name = "findandmodify" /\ cmd !! "findandmodify" = Some v)
         \/ (name = "count" /\ cmd !! "findandmodify" = None
             /\ cmd !! "count" = Some v))
        /\ (forall c, v <> VString c)
        /\ h' = <[op := set_Type ("command." +:+ name) o]> h.
Proof.
  intros Ho Ht Hc.
  rewrite (Canonicalizer.CanonicalizeOp_command h op o cmd) by assumption.
  destruct (cmd !! "findandmodify") as [v1|] eqn:H1.
  - destruct (CanonicalFacts.classic_string v1) as [[c ->]|Hv].
    + rewrite (Canonicalizer.canonicalize_loop_hit h op o cmd _ _ c Ho H1).
      split; [discriminate|].
      intros (name & v & [[_ [= <-]]|[_ [[=] _]]] & Hv & _). now destruct (Hv c).
    + rewrite (Canonicalizer.canonicalize_loop_bad h op o cmd _ _ v1 Ho H1 Hv).
      split.
      * intros [= <-]. exists "findandmodify", v1. auto.
      * intros (name & v & [[-> [= <-]]|[_ [[=] _]]] & _ & ->). reflexivity.
  - rewrite Canonicalizer.canonicalize_loop_miss by assumption.
    destruct (cmd !! "count") as [v2|] eqn:H2.
    + destruct (CanonicalFacts.classic_string v2) as [[c ->]|Hv].
      * rewrite (Canonicalizer.canonicalize_loop_hit h op o cmd _ _ c Ho H2).
        split; [discriminate|].
        intros (name & v & [[_ [=]]|[_ [_ [= <-]]]] & Hv & _). now destruct (Hv c).
      * rewrite (Canonicalizer.canonicalize_loop_bad h op o cmd _ _ v2 Ho H2 Hv).
        split.
        -- intros [= <-]. exists "count", v2. auto.
        -- intros (name & v & [[_ [=]]|[-> [_ [= <-]]]] & _ & ->). reflexivity.
    + rewrite Canonicalizer.canonicalize_loop_miss by assumption. cbn.
      split; [discriminate|].
      intros (name & v & [[_ [=]]|[_ [_ [=]]]] & _).
Qed.

Lemma CanonicalizeOp_panics_after_type_witness :
  CanonicalizeOp 1%nat {[ 1%nat := op_count_number ]}
  = Panic (<[1%nat := set_Type ("command." +:+ "count") op_count_number]>
             {[ 1%nat := op_count_number ]}).
Proof.
  refine (proj2 (CanonicalizeOp_panics_after_type {[ 1%nat := op_count_number ]} 1%nat
                   op_count_number {[ "count" := VInt32 7 ]} _ eq_refl eq_refl eq_refl) _).
  exists "count", (VInt32 7). repeat split.
  - right. repeat split.
  - discriminate.
Defined.

(** X11: what passes the canonicalizer and reaches the executor.  A command
    that [CanonicalizeOp] returns has one of the two canonical types, for
    which the executor has a sub-executor.  An Op whose type is neither
    command nor one of the six supported types passes [CanonicalizeOp]
    unchanged, and [Execute] panics on it. *)
Theorem CanonicalizeOp_then_Execute (h : Heap) (op : ptr) (o : Op) :
  h !! op = Some o ->
  (Type_ o = Command ->
   forall p h', CanonicalizeOp op h = Ret (Some p) h' ->
     exists o', h' !! p = Some o'
                /\ (Type_ o' = FindAndModify \/ Type_ o' = Count)
                /\ is_Some (subExecutes !! Type_ o'))
  /\ (Type_ o <> Command -> Type_ o ∉ AllOpTypes ->
      CanonicalizeOp op h = Ret (Some op) h
      /\ forall w, Execute o w = Panic w).
Proof.
  intros Ho. split.
  - intros Ht p h' HC.
    destruct (CanonicalFacts.CanonicalizeOp_cases h op o Ho)
      as [[Hn _]|[[_ H1]|[[_ (n & c & cmd & _ & Hin & _ & H1)]|[_ [h1 H1]]]]];
      [contradiction|rewrite H1 in HC; try discriminate..].
    injection HC as <- <-. eexists. split; [apply lookup_insert_eq|].
    cbn [Type_ canonical].
    apply elem_of_cons in Hin as [->|Hin];
      [|apply elem_of_cons in Hin as [->|Hin]; [|now apply elem_of_nil in Hin]].
    + split; [now left|]. rewrite ExecutorFacts.subExecutes_lookup. cbn. eauto.
    + split; [now right|]. rewrite ExecutorFacts.subExecutes_lookup. cbn. eauto.
  - intros Ht Hn. split; [now apply (Canonicalizer.CanonicalizeOp_other h op o)|].
    intros w. rewrite ExecuteFacts.Execute_run.
    rewrite (RetryFacts.retry_panic _ _ _ w w); [reflexivity|].
    unfold block. apply ExecutorFacts.subExecutes_None in Hn. now rewrite Hn.
Qed.

(** An op of a type the recorder may write and the executor does not know. *)
Definition op_getmore : Op :=
  {| Database := "app"; Collection := "users"; Type_ := "getmore"; Timestamp := 0;
     Content := ∅; TextContent := "" |}.

Lemma CanonicalizeOp_then_Execute_witness :
  CanonicalizeOp 1%nat {[ 1%nat := op_getmore ]}
  = Ret (Some 1%nat) {[ 1%nat := op_getmore ]}
  /\ forall w, Execute op_getmore w = Panic w.
Proof.
  refine (proj2 (CanonicalizeOp_then_Execute {[ 1%nat := op_getmore ]} 1%nat op_getmore
                   eq_refl) _ _).
  - discriminate.
  - unfold AllOpTypes. rewrite !not_elem_of_cons.
    repeat split; try discriminate. apply not_elem_of_nil.
Defined.

(** ** The statistics file *)

Module ReportFacts.

Lemma count_byte_append c s1 s2 :
  count_byte c (s1 +:+ s2) = (count_byte c s1 + count_byte c s2)%nat.
Proof.
  induction s1 as [|a s1 IH]; [reflexivity|].
  rewrite append_String. cbn [count_byte]. rewrite IH. lia.
Qed.

(** A string with no comma and no line feed: a field of a line. *)
Definition field (s : string) : Prop :=
  count_byte ","%char s = 0%nat /\ count_byte "010"%char s = 0%nat.

Lemma field_append s1 s2 : field s1 -> field s2 -> field (s1 +:+ s2).
Proof.
  intros [A1 B1] [A2 B2]. split; rewrite count_byte_append; lia.
Qed.

Lemma field_digits u : field (NilEmpty.string_of_uint u).
Proof. induction u; split; cbn; (reflexivity || apply IHu). Qed.

Lemma field_uint u : field (NilZero.string_of_uint u).
Proof. destruct u; try apply (field_digits (_ _)). split; reflexivity. Qed.

Lemma field_fmt_d n : field (fmt_d n).
Proof.
  unfold fmt_d. destruct (Z.to_int n) as [u|u]; cbn [NilZero.string_of_int].
  - apply field_uint.
  - destruct (field_uint u) as [A B]. split; cbn; assumption.
Qed.

Lemma field_zeros n : field (zeros n).
Proof. induction n as [|n [A B]]; split; cbn; (reflexivity || assumption). Qed.

Ltac field_leaf :=
  first [ apply field_uint | apply field_zeros | apply field_fmt_d
        | split; reflexivity
        | match goal with |- field (if ?b then _ else _) => destruct b end;
          split; reflexivity ].

Lemma field_appendInt x width : field (appendInt x width).
Proof. unfold appendInt. repeat first [field_leaf | apply field_append]. Qed.

Ltac field_tac :=
  repeat first [ apply field_appendInt | field_leaf | apply field_append ].

Lemma field_fmt_f2 f : field (fmt_f2 f).
Proof. destruct f as [s|s| |s m e]; cbn [fmt_f2]; field_tac. Qed.

Lemma field_Format t : field (Format t).
Proof. unfold Format. cbn zeta. field_tac. Qed.

(** The statistics line has two commas for its head and two for each op
    type, and no line feed. *)
Lemma stats_line_count t status types :
  count_byte ","%char (stats_line t status types) = (2 + 2 * length types)%nat
  /\ count_byte "010"%char (stats_line t status types) = 0%nat.
Proof.
  unfold stats_line.
  assert (forall line,
            count_byte ","%char
              (fold_left
                 (fun line opType =>
                    line +:+ "," +:+ fmt_d (index_int (IntervalCounts status) opType)
                    +:+ "," +:+ fmt_f2 (index_float (IntervalTypeOpsSec status) opType))
                 types line)
            = (count_byte ","%char line + 2 * length types)%nat
            /\ count_byte "010"%char
                 (fold_left
                    (fun line opType =>
                       line +:+ "," +:+ fmt_d (index_int (IntervalCounts status) opType)
                       +:+ "," +:+ fmt_f2 (index_float (IntervalTypeOpsSec status) opType))
                    types line)
               = count_byte "010"%char line) as Hfold.
  { induction types as [|ty types IH]; intros line; cbn [fold_left length].
    - split; lia.
    - destruct (IH (line +:+ "," +:+ fmt_d (index_int (IntervalCounts status) ty)
                    +:+ "," +:+ fmt_f2 (index_float (IntervalTypeOpsSec status) ty)))
        as [-> ->].
      rewrite !count_byte_append.
      destruct (field_fmt_d (index_int (IntervalCounts status) ty)) as [-> ->].
      destruct (field_fmt_f2 (index_float (IntervalTypeOpsSec status) ty)) as [-> ->].
      cbn. split; lia. }
  destruct (Hfold (Format t +:+ "," +:+ fmt_d (IntervalOpsExecuted status)
                   +:+ "," +:+ fmt_f2 (IntervalOpsPerSec status))) as [-> ->].
  rewrite !count_byte_append.
  destruct (field_Format t) as [-> ->].
  destruct (field_fmt_d (IntervalOpsExecuted status)) as [-> ->].
  destruct (field_fmt_f2 (IntervalOpsPerSec status)) as [-> ->].
  cbn. split; lia.
Qed.

(** The loop of [printStatus] writes to no file and does not read the
    clock; with a file it extends the line by the two fields of each op
    type, without one it leaves the line alone. *)
Lemma turns_fold status statsOut types o line :
  let r := fold_left (printStatus_turn status statsOut) types (o, line) in
  files (fst r) = files o /\ wall (fst r) = wall o
  /\ length (infos (fst r)) = (length (infos o) + 3 * length types)%nat
  /\ snd r = match statsOut with
             | Some _ =>
               fold_left
                 (fun line opType =>
                    line +:+ "," +:+ fmt_d (index_int (IntervalCounts status) opType)
                    +:+ "," +:+ fmt_f2 (index_float (IntervalTypeOpsSec status) opType))
                 types line
             | None => line
             end.
Proof.
  revert o line. induction types as [|ty types IH]; intros o line; cbn zeta.
  - cbn. repeat split; [lia|now destruct statsOut].
  - cbn [fold_left].
    destruct (printStatus_turn status statsOut (o, line) ty) as [o1 l1] eqn:E.
    destruct (IH o1 l1) as (-> & -> & -> & ->).
    unfold printStatus_turn in E. injection E as <- <-.
    cbn [files wall infos Infof length]. rewrite !length_app. cbn [length].
    repeat split; [lia|]. destruct statsOut; reflexivity.
Qed.

Lemma printStatus_files status statsOut name o :
  files (printStatus status statsOut name o)
  = match statsOut with
    | Some f =>
      alter (fun c => c +:+ stats_line (wall o) status AllOpTypes +:+ nl) f (files o)
    | None => files o
    end
  /\ length (infos (printStatus status statsOut name o))
     = (length (infos o) + 19)%nat
  /\ wall (printStatus status statsOut name o) = wall o.
Proof.
  unfold printStatus.
  match goal with |- context [fold_left _ AllOpTypes (?o1, ?l1)] =>
    pose proof (turns_fold status statsOut AllOpTypes o1 l1) as H;
    destruct (fold_left (printStatus_turn status statsOut) AllOpTypes (o1, l1))
      as [o2 l2] end.
  cbn zeta in H. cbn [fst snd] in H. destruct H as (Hf & Hw & Hi & Hl).
  destruct statsOut as [f|]; cbn [files wall infos WriteString].
  - rewrite Hf, Hw, Hi, Hl. cbn [files wall infos Infof]. rewrite length_app.
    cbn [length AllOpTypes]. repeat split; lia.
  - rewrite Hf, Hw, Hi. cbn [files wall infos Infof]. rewrite length_app.
    cbn [length AllOpTypes]. repeat split; lia.
Qed.

End ReportFacts.

Definition time0 : Time :=
  {| year := 2026; month := 3; day := 7; hour := 9; minute := 5; second := 0;
     zone := -25200 |}.

(** A snapshot with counts and rates for two op types only. *)
Definition status0 : ExecutionStatus :=
  {| OpsExecuted := 10; IntervalOpsExecuted := 4; OpsErrors := 0;
     IntervalOpsErrors := 0;
     OpsPerSec := S754_finite false 5 (-1);
     IntervalOpsPerSec := S754_finite false 1 (-2);
     Latencies := fun _ _ => S754_zero false;
     IntervalLatencies := fun _ _ => S754_zero false;
     MaxLatency := ∅; IntervalMaxLatency := ∅; Counts := ∅;
     IntervalCounts := {[ "insert" := 3; "query" := 1 ]};
     TypeOpsSec := ∅;
     IntervalTypeOpsSec := {[ "insert" := S754_finite false 3 (-2) ]} |}.

Definition output0 : Output :=
  {| wall := time0; infos := []; files := {[ 3%nat := EmptyString ]} |}.

(** X12: with a statistics file that is open, [printStatus] appends exactly
    one line to it and touches no other file: the line is the time, the
    interval count and the interval rate, then the interval count and rate
    of each op type in the order of [AllOpTypes] (zero for a type the
    snapshot has no entry for), with a line feed at its end and none inside;
    it has exactly 14 commas, that is 15 fields. *)
Theorem printStatus_appends_one_line status (f : nat) name o old :
  files o !! f = Some old ->
  files (printStatus status (Some f) name o)
  = <[f := old +:+ stats_line (wall o) status AllOpTypes +:+ nl]> (files o)
  /\ count_byte ","%char (stats_line (wall o) status AllOpTypes) = 14%nat
  /\ count_byte "010"%char (stats_line (wall o) status AllOpTypes) = 0%nat
  /\ forall g, g <> f -> files (printStatus status (Some f) name o) !! g = files o !! g.
Proof.
  intros Hf.
  destruct (ReportFacts.printStatus_files status (Some f) name o) as (-> & _ & _).
  destruct (ReportFacts.stats_line_count (wall o) status AllOpTypes) as [Hc Hn].
  repeat split; try assumption.
  - apply map_eq. intros g. destruct (decide (g = f)) as [->|Hg].
    + now rewrite lookup_alter_eq, lookup_insert_eq, Hf.
    + now rewrite lookup_alter_ne, lookup_insert_ne by congruence.
  - intros g Hg. now rewrite lookup_alter_ne by congruence.
Qed.

Lemma printStatus_appends_one_line_witness :
  files (printStatus status0 (Some 3%nat) "default" output0)
  = <[3%nat := EmptyString +:+ stats_line time0 status0 AllOpTypes +:+ nl]>
      (files output0)
  /\ count_byte ","%char (stats_line time0 status0 AllOpTypes) = 14%nat
  /\ count_byte "010"%char (stats_line time0 status0 AllOpTypes) = 0%nat
  /\ forall g, g <> 3%nat ->
       files (printStatus status0 (Some 3%nat) "default" output0) !! g
       = files output0 !! g.
Proof.
  exact (printStatus_appends_one_line status0 3%nat "default" output0 EmptyString
           eq_refl).
Defined.

(** X13: without a statistics file (a nil file) [printStatus] writes to no
    file; with or without one it logs 19 lines, one for the node and three
    for each of the six op types, and does not move the clock. *)
Theorem printStatus_nil_file status statsOut name o :
  files (printStatus status None name o) = files o
  /\ length (infos (printStatus status statsOut name o)) = (length (infos o) + 19)%nat
  /\ wall (printStatus status statsOut name o) = wall o.
Proof.
  destruct (ReportFacts.printStatus_files status None name o) as (-> & _ & _).
  destruct (ReportFacts.printStatus_files status statsOut name o) as (_ & -> & ->).
  auto.
Qed.

(** X14: a report adds to every open file one line for each node that has
    it as its statistics file, and nothing else: the content before is kept
    as it is, and the number of line feeds grows by the number of those
    nodes.  So a file that was created empty holds one line per report and
    node, with no header. *)
Theorem report_adds_one_line_per_node (nodes : list NodeView) o (f : nat) old :
  files o !! f = Some old ->
  exists added,
    files (report nodes o) !! f = Some (old +:+ added)
    /\ count_byte "010"%char added
       = length (filter (fun n => view_file n = Some f) nodes).
Proof.
  unfold report. revert o old.
  induction nodes as [|n nodes IH]; intros o old Hf; cbn [fold_left].
  - exists EmptyString. now rewrite append_Empty_r.
  - destruct (ReportFacts.printStatus_files (view_status n) (view_file n) (view_name n) o)
      as (HF & _ & _).
    destruct (view_file n) as [g|] eqn:Hg.
    + destruct (decide (g = f)) as [->|Hne].
      * destruct (IH (printStatus (view_status n) (Some f) (view_name n) o)
                    (old +:+ stats_line (wall o) (view_status n) AllOpTypes +:+ nl))
          as (added & Ha & Hc).
        { now rewrite HF, lookup_alter_eq, Hf. }
        exists ((stats_line (wall o) (view_status n) AllOpTypes +:+ nl) +:+ added).
        rewrite Ha, !append_assoc. split; [reflexivity|].
        rewrite filter_cons_True by assumption. cbn [length].
        rewrite <- !append_assoc, !ReportFacts.count_byte_append, Hc.
        destruct (ReportFacts.stats_line_count (wall o) (view_status n) AllOpTypes)
          as [_ ->].
        reflexivity.
      * destruct (IH (printStatus (view_status n) (Some g) (view_name n) o) old)
          as (added & Ha & Hc).
        { now rewrite HF, lookup_alter_ne, Hf by congruence. }
        exists added. rewrite Ha. split; [reflexivity|].
        rewrite filter_cons_False by congruence. assumption.
    + destruct (IH (printStatus (view_status n) None (view_name n) o) old)
        as (added & Ha & Hc).
      { now rewrite HF. }
      exists added. rewrite Ha. split; [reflexivity|].
      rewrite filter_cons_False by congruence. assumption.
Qed.

Lemma report_adds_one_line_per_node_witness :
  exists added,
    files (report [{| view_status := status0; view_file := Some 3%nat;
                      view_name := "default" |};
                   {| view_status := status0; view_file := None;
                      view_name := "challenger" |}] output0) !! 3%nat
    = Some (EmptyString +:+ added)
    /\ count_byte "010"%char added
       = length (filter (fun n => view_file n = Some 3%nat)
                   [{| view_status := status0; view_file := Some 3%nat;
                       view_name := "default" |};
                    {| view_status := status0; view_file := None;
                       view_name := "challenger" |}]).
Proof.
  exact (report_adds_one_line_per_node _ output0 3%nat EmptyString eq_refl).
Defined.

(** ** The fan-out of an operation to the nodes *)

Module FanOutFacts.

Lemma count_finished_le gs : (count_finished gs <= length gs)%nat.
Proof. induction gs as [|g gs IH]; cbn; [lia|]. destruct (is_finished g); lia. Qed.

Lemma count_finished_insert gs k g g' :
  gs !! k = Some g ->
  (count_finished (<[k := g']> gs) + (if is_finished g then 1 else 0)
   = count_finished gs + (if is_finished g' then 1 else 0))%nat.
Proof.
  unfold insert, lookup.
  revert k. induction gs as [|g0 gs IH]; intros k Hk; [discriminate|].
  destruct k as [|k]; cbn [list_insert list_lookup count_finished] in *.
  - injection Hk as ->. clear IH.
    destruct (is_finished g), (is_finished g'); lia.
  - specialize (IH k Hk). unfold insert in *. revert IH. clear Hk.
    destruct (is_finished g), (is_finished g'), (is_finished g0); intros IH; lia.
Qed.

Lemma count_finished_all gs k g :
  count_finished gs = length gs -> gs !! k = Some g -> g = Finished.
Proof.
  revert k. induction gs as [|g0 gs IH]; intros k Hc Hk; [discriminate|].
  cbn in Hc. pose proof (count_finished_le gs).
  destruct k as [|k]; cbn in Hk.
  - injection Hk as ->. destruct g; cbn in Hc; try lia. reflexivity.
  - apply (IH k); [|assumption]. destruct (is_finished g0); lia.
Qed.

Lemma count_finished_replicate n : count_finished (replicate n NotSpawned) = 0%nat.
Proof. induction n as [|n IH]; cbn; [reflexivity|assumption]. Qed.

Section Invariant.
Context (op : Op) (names : list string) (verbose : bool) (execs : list World).
Context (Hlen : length names = length execs).

Definition reachable (s : FanOut) : Prop :=
  rtc (fanout_step op names verbose) (fanout_init execs) s.

(** What holds in every state of the fan-out. *)
Record inv (s : FanOut) : Prop := {
  inv_goroutines : length (goroutines s) = length names;
  inv_executors : length (executors s) = length names;
  inv_wg :
    wg s = (if worker s is AtAdd then 0 else Z.of_nat (length names))
           - Z.of_nat (count_finished (goroutines s));
  inv_spawned : forall k g,
    goroutines s !! k = Some g ->
    match worker s with
    | AtAdd => g = NotSpawned
    | AtGo j => if decide (k < j)%nat then is_spawned g = true else g = NotSpawned
    | AtWait => is_spawned g = true
    | AfterWait => g = Finished
    end;
  inv_go : forall j, worker s = AtGo j -> (j <= length names)%nat;
  inv_alive : worker s = AfterWait -> crashed s = false;
  inv_executed : forall k g w0 w,
    goroutines s !! k = Some g -> execs !! k = Some w0 ->
    executors s !! k = Some w ->
    match g with
    | Returned err => Execute op w0 = Ret err w
    | Finished => exists err, Execute op w0 = Ret err w
    | _ => w = w0
    end;
}.

Lemma inv_init : inv (fanout_init execs).
Proof.
  split; cbn.
  - now rewrite length_replicate.
  - now symmetry.
  - rewrite count_finished_replicate. lia.
  - intros k g Hk. apply lookup_replicate in Hk as [-> _]. reflexivity.
  - discriminate.
  - discriminate.
  - intros k g w0 w Hk H0 H1. apply lookup_replicate in Hk as [-> _]. congruence.
Qed.

Lemma inv_step s s' : inv s -> fanout_step op names verbose s s' -> inv s'.
Proof.
  intros [Lg Le Hwg Hsp Hgo Hal Hex] Hstep.
  destruct Hstep as [s Hc Hw|s k name Hc Hw Hn|s k Hc Hw Hn|s k Hc Hg
                    |s k w err w' Hc Hg He HE|s k w w' Hc Hg He HE
                    |s k err name Hc Hg Hn|s Hc Hw H0].
  - (* wg.Add *)
    split; cbn; try assumption.
    + rewrite Hw in Hwg. lia.
    + intros k g Hk. specialize (Hsp k g Hk). rewrite Hw in Hsp.
      destruct (decide (k < 0)%nat); [lia|assumption].
    + intros j [= <-]. lia.
    + discriminate.
  - (* go *)
    assert (goroutines s !! k = Some NotSpawned) as Hk.
    { apply lookup_lt_Some in Hn as Hlt. rewrite <- Lg in Hlt.
      destruct (lookup_lt_is_Some_2 _ _ Hlt) as [g Hg].
      specialize (Hsp k g Hg). rewrite Hw in Hsp.
      destruct (decide (k < k)%nat); [lia|]. now subst. }
    split; cbn.
    + now rewrite length_insert.
    + assumption.
    + pose proof (count_finished_insert _ k _ Spawned Hk) as Hcnt. cbn in Hcnt.
      rewrite Hw in Hwg. lia.
    + intros i g Hi. destruct (decide (i = k)) as [->|Hne].
      * rewrite list_lookup_insert_eq in Hi by (now apply lookup_lt_Some in Hk).
        injection Hi as <-. destruct (decide (k < S k)%nat); [reflexivity|lia].
      * rewrite list_lookup_insert_ne in Hi by congruence.
        specialize (Hsp i g Hi). rewrite Hw in Hsp.
        destruct (decide (i < k)%nat), (decide (i < S k)%nat); try assumption; lia.
    + intros j [= <-]. apply lookup_lt_Some in Hn. lia.
    + discriminate.
    + intros i g w0 w Hi H0 H1. destruct (decide (i = k)) as [->|Hne].
      * rewrite list_lookup_insert_eq in Hi by (now apply lookup_lt_Some in Hk).
        injection Hi as <-. apply (Hex k NotSpawned w0 w Hk H0 H1).
      * rewrite list_lookup_insert_ne in Hi by congruence. now apply (Hex i g).
  - (* the end of the range *)
    split; cbn; try assumption.
    + now rewrite Hw in Hwg.
    + intros i g Hi. specialize (Hsp i g Hi). rewrite Hw in Hsp.
      apply lookup_ge_None in Hn. apply lookup_lt_Some in Hi.
      destruct (decide (i < k)%nat); [assumption|lia].
    + discriminate.
    + discriminate.
  - (* a goroutine starts *)
    split; cbn.
    + now rewrite length_insert.
    + assumption.
    + pose proof (count_finished_insert _ k _ InExecute Hg) as Hcnt. cbn in Hcnt.
      rewrite Hwg. destruct (worker s); lia.
    + intros i g Hi. destruct (decide (i = k)) as [->|Hne].
      * rewrite list_lookup_insert_eq in Hi by (now apply lookup_lt_Some in Hg).
        injection Hi as <-. specialize (Hsp k Spawned Hg).
        destruct (worker s); try discriminate; try reflexivity.
        destruct (decide (k < k0)%nat); [reflexivity|discriminate].
      * rewrite list_lookup_insert_ne in Hi by congruence. now apply Hsp.
    + assumption.
    + assumption.
    + intros i g w0 w Hi H0 H1. destruct (decide (i = k)) as [->|Hne].
      * rewrite list_lookup_insert_eq in Hi by (now apply lookup_lt_Some in Hg).
        injection Hi as <-. apply (Hex k Spawned w0 w Hg H0 H1).
      * rewrite list_lookup_insert_ne in Hi by congruence. now apply (Hex i g).
  - (* Execute returns *)
    split; cbn.
    + now rewrite length_insert.
    + now rewrite length_insert.
    + pose proof (count_finished_insert _ k _ (Returned err) Hg) as Hcnt. cbn in Hcnt.
      rewrite Hwg. destruct (worker s); lia.
    + intros i g Hi. destruct (decide (i = k)) as [->|Hne].
      * rewrite list_lookup_insert_eq in Hi by (now apply lookup_lt_Some in Hg).
        injection Hi as <-. specialize (Hsp k InExecute Hg).
        destruct (worker s); try discriminate; try reflexivity.
        destruct (decide (k < k0)%nat); [reflexivity|discriminate].
      * rewrite list_lookup_insert_ne in Hi by congruence. now apply Hsp.
    + assumption.
    + assumption.
    + intros i g w0 w1 Hi H0 H1. destruct (decide (i = k)) as [->|Hne].
      * rewrite list_lookup_insert_eq in Hi by (now apply lookup_lt_Some in Hg).
        rewrite list_lookup_insert_eq in H1 by (now apply lookup_lt_Some in He).
        injection Hi as <-. injection H1 as <-.
        now rewrite <- (Hex k InExecute w0 w Hg H0 He).
      * rewrite list_lookup_insert_ne in Hi by congruence.
        rewrite list_lookup_insert_ne in H1 by congruence. now apply (Hex i g).
  - (* Execute panics *)
    split; cbn; try assumption.
    intros Hw. specialize (Hsp k InExecute Hg). rewrite Hw in Hsp. discriminate.
  - (* wg.Done *)
    split; cbn.
    + now rewrite length_insert.
    + assumption.
    + pose proof (count_finished_insert _ k _ Finished Hg) as Hcnt. cbn in Hcnt.
      rewrite Hwg. destruct (worker s); lia.
    + intros i g Hi. destruct (decide (i = k)) as [->|Hne].
      * rewrite list_lookup_insert_eq in Hi by (now apply lookup_lt_Some in Hg).
        injection Hi as <-. specialize (Hsp k (Returned err) Hg).
        destruct (worker s); try discriminate; try reflexivity.
        destruct (decide (k < k0)%nat); [reflexivity|discriminate].
      * rewrite list_lookup_insert_ne in Hi by congruence. now apply Hsp.
    + assumption.
    + assumption.
    + intros i g w0 w Hi H0 H1. destruct (decide (i = k)) as [->|Hne].
      * rewrite list_lookup_insert_eq in Hi by (now apply lookup_lt_Some in Hg).
        injection Hi as <-. exists err. apply (Hex k (Returned err) w0 w Hg H0 H1).
      * rewrite list_lookup_insert_ne in Hi by congruence. now apply (Hex i g).
  - (* wg.Wait returns *)
    split; cbn; try assumption.
    + now rewrite Hw in Hwg.
    + intros k g Hk. apply (count_finished_all (goroutines s) k); [|assumption].
      rewrite Hw in Hwg. lia.
    + discriminate.
    + intros _. assumption.
Qed.

Lemma inv_reachable s : reachable s -> inv s.
Proof.
  unfold reachable. revert s. apply rtc_ind_r; [apply inv_init|].
  intros y z _ Hs IH. eapply inv_step; eassumption.
Qed.

Lemma inv_rtc s s' :
  inv s -> rtc (fanout_step op names verbose) s s' -> inv s'.
Proof.
  intros Hi H. induction H as [|x y z Hxy _ IH]; [assumption|].
  apply IH. eapply inv_step; eassumption.
Qed.

(** When no call of [Execute] on the executors panics, the program does not
    crash during the fan-out. *)
Context (Hreturns : forall k w0, execs !! k = Some w0 -> returns (Execute op w0) = true).

Lemma step_alive s s' :
  inv s -> crashed s = false -> fanout_step op names verbose s s' ->
  crashed s' = false.
Proof.
  intros Hi Hc Hstep.
  destruct Hstep as [s _ _|s k name _ _ _|s k _ _ _|s k _ _
                    |s k w err w' _ _ _ _|s k w w' _ Hg He HE
                    |s k err name _ _ _|s _ _ _]; cbn; try assumption.
  exfalso.
  assert (k < length execs)%nat as Hk.
  { apply lookup_lt_Some in He. rewrite (inv_executors _ Hi) in He. lia. }
  destruct (lookup_lt_is_Some_2 execs k Hk) as [w0 H0].
  pose proof (inv_executed _ Hi k InExecute w0 w Hg H0 He) as ->.
  specialize (Hreturns k w0 H0). rewrite HE in Hreturns. discriminate.
Qed.

Lemma rtc_alive s s' :
  inv s -> crashed s = false -> rtc (fanout_step op names verbose) s s' ->
  crashed s' = false.
Proof.
  intros Hi Hc H. induction H as [|x y z Hxy _ IH]; [assumption|].
  apply IH; [eapply inv_step; eassumption|eapply step_alive; eassumption].
Qed.

(** The worker gets to [wg.Wait()]. *)
Lemma to_AtGo_end j s :
  crashed s = false -> worker s = AtGo (length names - j) ->
  (j <= length names)%nat ->
  exists s', rtc (fanout_step op names verbose) s s' /\ worker s' = AtWait.
Proof.
  revert s. induction j as [|j IH]; intros s Hc Hw Hj.
  - exists (set_worker AtWait s). split; [|reflexivity].
    apply rtc_once. apply (step_range_end _ _ _ s (length names - 0)); try assumption.
    apply lookup_ge_None. lia.
  - destruct (lookup_lt_is_Some_2 names (length names - S j)) as [name Hn]; [lia|].
    destruct (IH (set_worker (AtGo (S (length names - S j)))
                    (set_goroutine (length names - S j) Spawned s)))
      as (s' & Hr & Hw'); [assumption| |lia|].
    { cbn. f_equal. lia. }
    exists s'. split; [|assumption].
    eapply rtc_l; [|exact Hr]. eapply step_go; eassumption.
Qed.

Lemma to_AtWait s :
  crashed s = false -> inv s -> worker s <> AfterWait ->
  exists s', rtc (fanout_step op names verbose) s s' /\ worker s' = AtWait.
Proof.
  intros Hc Hi Hw. destruct (worker s) as [|j| |] eqn:Hws.
  - destruct (to_AtGo_end (length names)
                (set_worker (AtGo 0) (set_wg (wg s + Z.of_nat (length names)) s)))
      as (s' & Hr & Hw'); [assumption|cbn; f_equal; lia|lia|].
    exists s'. split; [|assumption].
    eapply rtc_l; [|exact Hr]. now apply step_Add.
  - pose proof (inv_go _ Hi j Hws) as Hj.
    destruct (to_AtGo_end (length names - j) s) as (s' & Hr & Hw');
      [assumption|rewrite Hws; f_equal; lia|lia|].
    eauto.
  - exists s. split; [apply rtc_refl|assumption].
  - contradiction.
Qed.

Lemma not_all_finished gs :
  (count_finished gs < length gs)%nat ->
  exists k g, gs !! k = Some g /\ is_finished g = false.
Proof.
  induction gs as [|g0 gs IH]; cbn; [lia|]. intros H.
  destruct (is_finished g0) eqn:Hg0.
  - destruct IH as (k & g & Hk & Hg); [lia|]. exists (S k), g. auto.
  - exists 0%nat, g0. auto.
Qed.

(** A goroutine that is spawned and not finished gets to its end. *)
Lemma finish_one s k g :
  inv s -> crashed s = false -> goroutines s !! k = Some g ->
  is_spawned g = true -> is_finished g = false ->
  exists s',
    rtc (fanout_step op names verbose) s s' /\ worker s' = worker s
    /\ count_finished (goroutines s') = S (count_finished (goroutines s)).
Proof.
  intros Hi Hc Hg Hsp Hfin.
  assert (k < length names)%nat as Hk
    by (apply lookup_lt_Some in Hg; now rewrite (inv_goroutines _ Hi) in Hg).
  destruct (lookup_lt_is_Some_2 names k Hk) as [name Hn].
  assert (forall s1 err,
            crashed s1 = false -> goroutines s1 !! k = Some (Returned err) ->
            exists s',
              rtc (fanout_step op names verbose) s1 s' /\ worker s' = worker s1
              /\ count_finished (goroutines s')
                 = S (count_finished (goroutines s1))) as Hdone.
  { intros s1 err Hc1 Hg1. eexists. split; [apply rtc_once; eapply step_Done; eassumption|].
    cbn. split; [reflexivity|].
    pose proof (count_finished_insert _ k _ Finished Hg1) as Hcnt. cbn in Hcnt. lia. }
  assert (forall s1,
            inv s1 -> crashed s1 = false -> goroutines s1 !! k = Some InExecute ->
            exists s',
              rtc (fanout_step op names verbose) s1 s' /\ worker s' = worker s1
              /\ count_finished (goroutines s')
                 = S (count_finished (goroutines s1))) as Hexec.
  { intros s1 Hi1 Hc1 Hg1.
    destruct (lookup_lt_is_Some_2 (executors s1) k) as [w He];
      [now rewrite (inv_executors _ Hi1)|].
    destruct (lookup_lt_is_Some_2 execs k) as [w0 H0]; [now rewrite <- Hlen|].
    pose proof (inv_executed _ Hi1 k InExecute w0 w Hg1 H0 He) as ->.
    pose proof (Hreturns k w0 H0) as Hret.
    destruct (Execute op w0) as [err w'|] eqn:HE; [|discriminate].
    destruct (Hdone (set_goroutine k (Returned err) (set_executor k w' s1)) err)
      as (s' & Hr & Hw' & Hcnt); [assumption| |].
    { cbn. apply list_lookup_insert_eq. now apply lookup_lt_Some in Hg1. }
    exists s'. split; [|split].
    - eapply rtc_l; [|exact Hr]. eapply step_return; eassumption.
    - assumption.
    - rewrite Hcnt. cbn.
      pose proof (count_finished_insert _ k _ (Returned err) Hg1) as Hc2.
      cbn in Hc2. lia. }
  destruct g; try discriminate.
  - destruct (Hexec (set_goroutine k InExecute s)) as (s' & Hr & Hw' & Hcnt).
    + eapply inv_step; [exact Hi|]. now apply step_start.
    + assumption.
    + cbn. apply list_lookup_insert_eq. now apply lookup_lt_Some in Hg.
    + exists s'. split; [|split].
      * eapply rtc_l; [|exact Hr]. now apply step_start.
      * assumption.
      * rewrite Hcnt. cbn.
        pose proof (count_finished_insert _ k _ InExecute Hg) as Hc2.
        cbn in Hc2. lia.
  - now apply Hexec.
  - now apply (Hdone s err).
Qed.

Lemma finish_all m s :
  inv s -> crashed s = false -> worker s = AtWait ->
  (length names - count_finished (goroutines s) = m)%nat ->
  exists s',
    rtc (fanout_step op names verbose) s s' /\ worker s' = AtWait
    /\ count_finished (goroutines s') = length names.
Proof.
  revert s. induction m as [|m IH]; intros s Hi Hc Hw Hm.
  - exists s. split; [apply rtc_refl|]. split; [assumption|].
    pose proof (count_finished_le (goroutines s)).
    rewrite (inv_goroutines _ Hi) in *. lia.
  - destruct (not_all_finished (goroutines s)) as (k & g & Hg & Hf);
      [rewrite (inv_goroutines _ Hi); lia|].
    pose proof (inv_spawned _ Hi k g Hg) as Hsp. rewrite Hw in Hsp.
    destruct (finish_one s k g Hi Hc Hg Hsp Hf) as (s1 & Hr1 & Hw1 & Hc1).
    destruct (IH s1) as (s' & Hr & Hw' & Hcnt).
    + exact (inv_rtc s s1 Hi Hr1).
    + exact (rtc_alive s s1 Hi Hc Hr1).
    + congruence.
    + lia.
    + exists s'. split; [|auto]. eapply rtc_trans; eassumption.
Qed.

Lemma to_AfterWait s :
  inv s -> crashed s = false ->
  exists s', rtc (fanout_step op names verbose) s s' /\ worker s' = AfterWait.
Proof.
  intros Hi Hc.
  assert (worker s = AfterWait \/ worker s <> AfterWait) as [Hw|Hw]
    by (destruct (worker s); auto; right; discriminate).
  { exists s. split; [apply rtc_refl|assumption]. }
  destruct (to_AtWait s Hc Hi Hw) as (s1 & Hr1 & Hw1).
  pose proof (inv_rtc s s1 Hi Hr1) as Hi1.
  pose proof (rtc_alive s s1 Hi Hc Hr1) as Hc1.
  destruct (finish_all _ s1 Hi1 Hc1 Hw1 eq_refl) as (s2 & Hr2 & Hw2 & Hcnt).
  pose proof (inv_rtc s1 s2 Hi1 Hr2) as Hi2.
  pose proof (rtc_alive s1 s2 Hi1 Hc1 Hr2) as Hc2.
  exists (set_worker AfterWait s2). split; [|reflexivity].
  eapply rtc_trans; [exact Hr1|].
  eapply rtc_r; [exact Hr2|]. apply step_Wait; try assumption.
  rewrite (inv_wg _ Hi2), Hw2, Hcnt. lia.
Qed.

End Invariant.

End FanOutFacts.


(** X16: when [Execute(op)] panics on none of the executors, the fan-out
    cannot get stuck and cannot crash: from every state it can be in, with
    some goroutines not started, some in their call and some back with an
    error, the worker can still get past [wg.Wait()].  An error that one
    node returns keeps no other node from completing. *)
Theorem fanout_completes (op : Op) (names : list string) (verbose : bool)
  (execs : list World) (s : FanOut) :
  length names = length execs ->
  (forall k w0, execs !! k = Some w0 -> returns (Execute op w0) = true) ->
  rtc (fanout_step op names verbose) (fanout_init execs) s ->
  crashed s = false
  /\ exists s', rtc (fanout_step op names verbose) s s' /\ worker s' = AfterWait.
Proof.
  intros Hlen Hret Hr.
  pose proof (FanOutFacts.inv_reachable op names verbose execs Hlen s Hr) as Hi.
  assert (crashed s = false) as Hc.
  { apply (FanOutFacts.rtc_alive op names verbose execs Hlen Hret (fanout_init execs) s);
      [apply FanOutFacts.inv_init; assumption|reflexivity|assumption]. }
  split; [assumption|].
  now apply (FanOutFacts.to_AfterWait op names verbose execs Hlen Hret).
Qed.

(** A session on which every request fails with a socket error. *)
Definition broken (n : nat) : Reply :=
  {| r_err := Some (OtherError "EOF"); r_docs := []; r_elapsed := 7 |}.




Lemma fanout_completes_witness :
  crashed (fanout_init [world0 flaky; world0 broken]) = false
  /\ exists s',
       rtc (fanout_step op_insert ["default"; "challenger"] true)
         (fanout_init [world0 flaky; world0 broken]) s'
       /\ worker s' = AfterWait.
Proof.
  refine (fanout_completes op_insert ["default"; "challenger"] true
            [world0 flaky; world0 broken] _ eq_refl _ (rtc_refl _ _)).
  intros [|[|k]] w0 H; try discriminate; injection H as <-; reflexivity.
Defined.

(** * The loop of a worker *)

Module WorkerFacts.


(** What a call of [Execute] that returns does to the channel of its
    executor, and the type the op must have had. *)
Lemma Execute_chan op w err w' :
  Execute op w = Ret err w' ->
  Type_ op ∈ AllOpTypes
  /\ match statsChan w with
     | Some q => exists st, statsChan w' = Some (q ++ [st]) /\ OpType_ st = Type_ op
     | None => statsChan w' = None
     end.
Proof.
  intros HE. split.
  - destruct (decide (Type_ op ∈ AllOpTypes)) as [|Hn]; [assumption|].
    apply ExecutorFacts.subExecutes_None in Hn.
    rewrite ExecuteFacts.Execute_run in HE.
    rewrite (RetryFacts.retry_panic _ _ _ w w) in HE; [discriminate|].
    unfold block. now rewrite Hn.
  - rewrite ExecuteFacts.Execute_run in HE.
    pose proof (ExecutorFacts.framed_retry op w) as [Hc _ _ _ _].
    destruct (retryOnSocketFailure Refresh logError (block op) w) as [e wr|wr];
      [|discriminate].
    cbn [final] in Hc. injection HE as <- <-. rewrite Hc.
    destruct (statsChan w) as [q|]; cbn; [eauto|exact Hc].
Qed.

(** The channel of an executor after the ops of the given types. *)
Definition grows (types : list OpType) (w w' : World) : Prop :=
  match statsChan w with
  | Some q => exists stats, statsChan w' = Some (q ++ stats) /\ map OpType_ stats = types
  | None => statsChan w' = None
  end.





(** The fan-out as a whole: each executor has run [Execute(op)] once. *)
Lemma fanout_run_each op verbose names execs ws lines :
  length names = length execs ->
  fanout_run op verbose names execs = Some (ws, lines) ->
  Forall2 (fun w w' => exists err, Execute op w = Ret err w') execs ws.
Proof.
  revert names ws lines.
  induction execs as [|w execs IH]; intros names ws lines Hlen H.
  - destruct names; [|discriminate]. cbn in H. injection H as <- <-. constructor.
  - destruct names as [|name names]; [discriminate|]. cbn in H.
    destruct (Execute op w) as [err w'|] eqn:HE; [|discriminate].
    destruct (fanout_run op verbose names execs) as [[ws' lines']|] eqn:Hrun;
      [|discriminate].
    injection H as <- <-. constructor; [eauto|].
    apply (IH names ws' lines'); [|assumption]. cbn in Hlen. lia.
Qed.


(** The state of a worker with another store of ops. *)
Definition with_ops (h : Heap) (s : WorkerState) : WorkerState :=
  {| ops := h; node_execs := node_execs s; opsExecuted_ := opsExecuted_ s;
     error_lines := error_lines s; slow_lines := slow_lines s |}.

(** One turn of the loop, on a pointer that is not nil: the op is dropped,
    or it is executed on every node and counted. *)
Lemma fetch_cons thr verbose names p rest s s' :
  fetch thr verbose names (Some p :: rest) s = Ret tt s' ->
  (exists h, CanonicalizeOp p (ops s) = Ret None h
             /\ fetch thr verbose names rest (with_ops h s) = Ret tt s')
  \/ (exists h p' o s1,
        CanonicalizeOp p (ops s) = Ret (Some p') h
        /\ h !! p' = Some o
        /\ fetch_turn thr verbose names o (with_ops h s) = Ret tt s1
        /\ fetch thr verbose names rest s1 = Ret tt s').
Proof.
  cbn [fetch]. unfold mbind, M_bind, canonicalize.
  destruct (CanonicalizeOp p (ops s)) as [[p'|] h|h]; [| |discriminate].
  - fold (with_ops h s). change (ops (with_ops h s)) with h.
    destruct (h !! p') as [o|] eqn:Ho; [|discriminate].
    destruct (fetch_turn thr verbose names o (with_ops h s)) as [[] s1|] eqn:Ht;
      [|discriminate].
    intros H. right. exists h, p', o, s1. repeat split; try assumption; reflexivity.
  - fold (with_ops h s). intros H. left. eauto.
Qed.

Lemma fetch_turn_spec thr verbose names o s s' :
  fetch_turn thr verbose names o s = Ret tt s' ->
  exists lines,
    fanout_run o verbose names (node_execs s) = Some (node_execs s', lines)
    /\ ops s' = ops s
    /\ opsExecuted_ s' = wrap64 (opsExecuted_ s + 1)
    /\ error_lines s' = error_lines s ++ lines
    /\ slow_lines s'
       = slow_lines s
         ++ (if (0 <? thr) && existsb (isSlow thr) (map lastLatency (node_execs s'))
             then [(Type_ o, map lastLatency (node_execs s'))] else []).
Proof.
  unfold fetch_turn.
  destruct (fanout_run o verbose names (node_execs s)) as [[ws lines]|];
    [|discriminate].
  intros [= <-]. exists lines. cbn. repeat split; reflexivity.
Qed.

Lemma fanout_run_lines op names execs ws lines :
  fanout_run op false names execs = Some (ws, lines) -> lines = [].
Proof.
  revert names ws lines. induction execs as [|w execs IH]; intros names ws lines H.
  - destruct names; cbn in H; now injection H as <- <-.
  - destruct names as [|name names]; cbn in H; [now injection H as <- <-|].
    destruct (Execute op w) as [err w'|]; [|discriminate].
    destruct (fanout_run op false names execs) as [[ws' lines']|] eqn:Hrun;
      [|discriminate].
    injection H as <- <-. rewrite (IH _ _ _ Hrun). now destruct err.
Qed.

Lemma fanout_run_grows op verbose names execs ws lines :
  length names = length execs ->
  fanout_run op verbose names execs = Some (ws, lines) ->
  Forall2 (grows [Type_ op]) execs ws
  /\ (execs <> [] -> Type_ op ∈ AllOpTypes).
Proof.
  intros Hlen H. pose proof (fanout_run_each _ _ _ _ _ _ Hlen H) as Hall. split.
  - eapply Forall2_impl; [exact Hall|]. intros w w' [err HE].
    apply Execute_chan in HE as [_ HE]. unfold grows.
    destruct (statsChan w) as [q|]; [|assumption].
    destruct HE as (st & -> & Ht). exists [st]. cbn. now rewrite Ht.
  - destruct Hall as [|w w' ? ? [err HE] _]; [congruence|]. intros _.
    now apply Execute_chan in HE as [Ht _].
Qed.


(** The lines a worker logs. *)
Lemma fetch_lines thr verbose names received : forall s s',
  length names = length (node_execs s) ->
  fetch thr verbose names received s = Ret tt s' ->
  (exists lines, error_lines s' = error_lines s ++ lines
                 /\ (verbose = false -> lines = []))
  /\ exists added,
       slow_lines s' = slow_lines s ++ added
       /\ (length added <= length received)%nat
       /\ (thr <= 0 -> added = [])
       /\ Forall (fun line =>
                    length (snd line) = length names
                    /\ Exists (fun latency => wrap64 (thr * 1000000) < latency)
                         (snd line)) added.
Proof.
  induction received as [|[p|] rest IH]; intros s s' Hlen H.
  - injection H as <-. split; [exists []|exists []]; rewrite app_nil_r;
      repeat split; try constructor; cbn; lia.
  - apply fetch_cons in H as [(h & _ & H)|(h & p' & o & s1 & _ & _ & Ht & H)].
    + destruct (IH (with_ops h s) s' Hlen H) as [He (added & Hs & Hl & Hz & Hf)].
      split; [exact He|]. exists added. cbn [length]. repeat split; auto; lia.
    + apply fetch_turn_spec in Ht as (lines & Hrun & _ & _ & He1 & Hs1).
      cbn [with_ops node_execs error_lines slow_lines] in Hrun, He1, Hs1.
      destruct (fanout_run_grows _ _ _ _ _ _ Hlen Hrun) as [Hg1 _].
      pose proof (Forall2_length _ _ _ Hg1) as Hl1.
      destruct (IH s1 s' ltac:(congruence) H)
        as [(lines' & He & Hv) (added & Hs & Hl & Hz & Hf)].
      split.
      * exists (lines ++ lines'). rewrite He, He1, app_assoc. split; [reflexivity|].
        intros ->. rewrite (fanout_run_lines _ _ _ _ _ Hrun), Hv; reflexivity.
      * rewrite Hs, Hs1, <- app_assoc. eexists. split; [reflexivity|].
        destruct (0 <? thr) eqn:Hthr; cbn [andb].
        -- destruct (existsb (isSlow thr) (map lastLatency (node_execs s1))) eqn:Hex.
           ++ cbn [app length]. repeat split; [lia|lia|].
              constructor; [|assumption]. cbn [snd]. split.
              ** rewrite length_map. congruence.
              ** apply Exists_exists. apply existsb_exists in Hex as (l & Hin & Hl').
                 exists l. split; [now apply list_elem_of_In|]. unfold isSlow in Hl'. lia.
           ++ cbn [app length]. repeat split; auto; lia.
        -- cbn [app length]. repeat split; auto; lia.
  - injection H as <-. split; [exists []|exists []]; rewrite app_nil_r;
      repeat split; try constructor; cbn; lia.
Qed.

End WorkerFacts.



(** A command that is neither a findandmodify nor a count. *)
Definition op_ping : Op :=
  {| Database := "app"; Collection := "$cmd"; Type_ := Command; Timestamp := 0;
     Content := {[ "command" := VMap {[ "ping" := VInt32 1 ]} ]};
     TextContent := "" |}.

(** A worker of two nodes before its first op. *)
Definition worker0 : WorkerState :=
  {| ops := {[ 1%nat := op_insert; 2%nat := op_ping; 3%nat := op_count ]};
     node_execs := [world0 flaky; world0 broken];
     opsExecuted_ := 0; error_lines := []; slow_lines := [] |}.

(** What it receives: an insert, a command that is dropped, a count, and
    then nil. *)
Definition received0 : list (option ptr) :=
  [Some 1%nat; Some 2%nat; Some 3%nat; None; Some 1%nat].



(** X19: what a worker logs.  Without [verbose] it logs no error line,
    whatever the nodes return.  It logs at most one slow-op line per pointer
    received, none at all when the threshold is zero or negative, and each
    such line lists one latency per node, of which at least one is above
    the threshold (in nanoseconds, as a signed integer of 64 bits). *)
Theorem fetch_logging (slowOpThresholdMs : Z) (verbose : bool)
  (names : list string) (received : list (option ptr)) (s s' : WorkerState) :
  length names = length (node_execs s) ->
  fetch slowOpThresholdMs verbose names received s = Ret tt s' ->
  (exists lines, error_lines s' = error_lines s ++ lines
                 /\ (verbose = false -> lines = []))
  /\ exists added,
       slow_lines s' = slow_lines s ++ added
       /\ (length added <= length received)%nat
       /\ (slowOpThresholdMs <= 0 -> added = [])
       /\ Forall (fun line =>
                    length (snd line) = length names
                    /\ Exists (fun latency =>
                                 wrap64 (slowOpThresholdMs * 1000000) < latency)
                         (snd line)) added.
Proof.
  intros Hlen H. exact (WorkerFacts.fetch_lines _ _ _ _ s s' Hlen H).
Qed.

Lemma fetch_logging_witness :
  (exists lines,
     error_lines (final (fetch 0 false ["default"; "challenger"] received0 worker0))
     = error_lines worker0 ++ lines
     /\ (false = false -> lines = []))
  /\ exists added,
       slow_lines (final (fetch 0 false ["default"; "challenger"] received0 worker0))
       = slow_lines worker0 ++ added
       /\ (length added <= length received0)%nat
       /\ (0 <= 0 -> added = [])
       /\ Forall (fun line =>
                    length (snd line) = length ["default"; "challenger"]
                    /\ Exists (fun latency => wrap64 (0 * 1000000) < latency)
                         (snd line)) added.
Proof.
  apply (fetch_logging 0 false ["default"; "challenger"] received0 worker0).
  - reflexivity.
  - vm_compute. reflexivity.
Defined.
